(** * Elevator path search (elevator.js)

    A shallow embedding of [Node], [ElevatorPathTree.buildElevatorPathTree],
    [ElevatorPathTree.findFinalDestinationPath] and [findElevatorPath],
    followed by the properties proved about them.

    Modelling conventions.
    - [elevatorStates] is a JavaScript object whose values are arrays of
      floors.  It is an association list given in the order in which
      [for ... in] enumerates its keys; keys are unique in a JavaScript
      object, which the theorems that need it assume as [NoDup (keys s)].
      Looking up a name that is not a key gives [undefined], and indexing
      [undefined] throws: [TypeError] below.
    - Floors are integers ([Z]).  [arr[i]] out of range is [undefined],
      modelled by [None]; a value is truthy when it is defined and not 0.
    - During the build phase nodes are shared between the work list and
      their parent's [children] array, so the build runs on a heap of cells
      addressed by allocation index.  Once built the tree is only read, and
      is handed to the search as a value of the inductive type [Node].
    - The two loops are run with fuel; [OutOfFuel] is shown unreachable for
      the fuel the entry points supply.
    - [findElevatorPath] receives the two numbers that [parseInt] extracts
      from the destination token ([NaN] included); splitting and parsing the
      token itself is not modelled. *)

From Stdlib Require Import ZArith Lia.
From stdpp Require Import base list strings.
Set Warnings "-register-all".

(** ** JavaScript values *)

Module Js.

(** A number produced by [parseInt]. *)
Inductive Num : Type := NaN | Int (z : Z).

(** Result of running a piece of code. *)
Inductive Outcome (A : Type) : Type :=
| Ok (a : A)
| TypeError
| OutOfFuel.
Arguments Ok {A} a.
Arguments TypeError {A}.
Arguments OutOfFuel {A}.

(** [if (v)] for a possibly undefined integer. *)
Definition truthy (v : option Z) : bool :=
  match v with
  | Some z => negb (z =? 0)%Z
  | None => false
  end.

(** [a === b] on possibly undefined integers. *)
Definition strictEq (a b : option Z) : bool :=
  match a, b with
  | Some x, Some y => (x =? y)%Z
  | None, None => true
  | _, _ => false
  end.

(** [a === n] for a possibly undefined integer and a parsed number. *)
Definition strictEqNum (a : option Z) (n : Num) : bool :=
  match a, n with
  | Some x, Int y => (x =? y)%Z
  | _, _ => false
  end.

(** [t < n] for a time index and a parsed number. *)
Definition ltNum (t : nat) (n : Num) : bool :=
  match n with
  | Int y => (Z.of_nat t <? y)%Z
  | NaN => false
  end.

(** [t === n] for a time index and a parsed number. *)
Definition eqNum (t : nat) (n : Num) : bool :=
  match n with
  | Int y => (Z.of_nat t =? y)%Z
  | NaN => false
  end.

(** [arr.pop()] for its effect on the array. *)
Definition pop {A : Type} (l : list A) : list A := removelast l.

(** [arr.join("")] on an array of strings. *)
Definition join (l : list string) : string := String.concat "" l.

(** [s.substring(1)]. *)
Definition substring1 (s : string) : string :=
  match s with
  | EmptyString => EmptyString
  | String _ rest => rest
  end.

End Js.
Export Js.

(** ** Data model *)

Definition Schedule : Type := list (string * list Z).

Definition keys (elevatorStates : Schedule) : list string :=
  map fst elevatorStates.

(** [elevatorStates[name]]. *)
Fixpoint get (elevatorStates : Schedule) (name : string) : option (list Z) :=
  match elevatorStates with
  | [] => None
  | (k, row) :: rest => if String.eqb k name then Some row else get rest name
  end.

(** The [data] object of a [Node]. *)
Record NodeData : Type := mkData {
  elevator : string;
  floor : option Z;
  time : nat
}.

(** A finished [Node]: its data and its array of children. *)
Inductive Node : Type :=
| mkNode (data : NodeData) (children : list Node).

Definition data (n : Node) : NodeData :=
  match n with mkNode d _ => d end.

Definition children (n : Node) : list Node :=
  match n with mkNode _ cs => cs end.

(** ** The heap of the build phase *)

Record Cell : Type := mkCell {
  cdata : NodeData;
  ckids : list nat
}.

Abbreviation Heap := (list Cell).

(** [new Node(d)]: a fresh cell with no children. *)
Definition newNode (d : NodeData) (h : Heap) : nat * Heap :=
  (length h, h ++ [mkCell d []]).

(** [p.addChild(c)]: [p.children.push(c)]. *)
Definition addChild (p c : nat) (h : Heap) : Heap :=
  alter (fun cell => mkCell (cdata cell) (ckids cell ++ [c])) p h.

(** The three statements that follow every [new Node] in the builder:
    create the child, add it to [currentNode], push it on [listOfNodes]. *)
Definition attach (currentNode : nat) (d : NodeData)
    (st : Heap * list nat) : Heap * list nat :=
  let '(c, h1) := newNode d st.1 in
  (addChild currentNode c h1, st.2 ++ [c]).

(** [elevatorStates[name][i]]: [None] when the index is out of range.
    Used where [name] is a key of [elevatorStates]; for another name the
    source would throw, and this gives [None]. *)
Definition floorOf (elevatorStates : Schedule) (name : string) (i : nat)
    : option Z :=
  row ← get elevatorStates name; row !! i.

(** Body of the [for ... in] loop for one key of [elevatorStates]. *)
Definition considerTransfer (elevatorStates : Schedule) (currentNode : nat)
    (currentElevator : string) (currentTime : nat)
    (nextFloorSameElevator : option Z)
    (st : Heap * list nat) (possibleNextElevator : string)
    : Heap * list nat :=
  let possibleNextFloor :=
    floorOf elevatorStates possibleNextElevator currentTime in
  if truthy possibleNextFloor
     && negb (String.eqb currentElevator possibleNextElevator)
     && strictEq nextFloorSameElevator possibleNextFloor
  then attach currentNode
         (mkData possibleNextElevator possibleNextFloor (currentTime + 1)) st
  else st.

(** Body of the [while] loop of [buildElevatorPathTree], after
    [currentNode] has been shifted off [listOfNodes].  The work list only
    holds allocated cells, so the first [TypeError] does not arise; the
    second one is [elevatorStates[currentElevator]] being [undefined]. *)
Definition expandStep (elevatorStates : Schedule) (currentNode : nat)
    (st : Heap * list nat) : Outcome (Heap * list nat) :=
  match st.1 !! currentNode with
  | None => TypeError
  | Some cell =>
      let currentElevator := elevator (cdata cell) in
      let currentTime := time (cdata cell) in
      match get elevatorStates currentElevator with
      | None => TypeError
      | Some row =>
          let nextFloorSameElevator := row !! currentTime in
          let st1 :=
            if truthy nextFloorSameElevator
            then attach currentNode
                   (mkData currentElevator nextFloorSameElevator
                      (currentTime + 1)) st
            else st in
          Ok (fold_left
                (considerTransfer elevatorStates currentNode currentElevator
                   currentTime nextFloorSameElevator)
                (keys elevatorStates) st1)
      end
  end.

(** The [while (listOfNodes.length > 0)] loop. *)
Fixpoint buildLoop (fuel : nat) (elevatorStates : Schedule)
    (h : Heap) (listOfNodes : list nat) : Outcome Heap :=
  match listOfNodes with
  | [] => Ok h
  | currentNode :: rest =>
      match fuel with
      | O => OutOfFuel
      | S fuel' =>
          match expandStep elevatorStates currentNode (h, rest) with
          | Ok st => buildLoop fuel' elevatorStates st.1 st.2
          | TypeError => TypeError
          | OutOfFuel => OutOfFuel
          end
      end
  end.

(** Reading the finished object graph below cell [i] as a [Node]; [None]
    when [depth] is too small or an index is not allocated. *)
Fixpoint toNode (depth : nat) (h : Heap) (i : nat) : option Node :=
  match depth with
  | O => None
  | S depth' =>
      cell ← h !! i;
      kids ← mapM (toNode depth' h) (ckids cell);
      Some (mkNode (cdata cell) kids)
  end.

(** Longest floor array of the schedule. *)
Definition horizon (elevatorStates : Schedule) : nat :=
  foldr (fun entry m => Nat.max (length entry.2) m) 0 elevatorStates.

(** [1 + b + b^2 + ... + b^k]: the number of nodes of a tree of depth [k]
    in which every node has [b] children. *)
Fixpoint fullTreeSize (b k : nat) : nat :=
  match k with
  | O => 1
  | S k' => 1 + b * fullTreeSize b k'
  end.

Definition buildFuel (elevatorStates : Schedule) : nat :=
  fullTreeSize (1 + length elevatorStates) (horizon elevatorStates).

(** [buildElevatorPathTree(elevatorStates, startingElevator)]; the result
    is [this.root]. *)
Definition buildElevatorPathTree (elevatorStates : Schedule)
    (startingElevator : string) : Outcome Node :=
  match get elevatorStates startingElevator with
  | None => TypeError
  | Some row =>
      let root := mkData startingElevator (row !! 0) 0 in
      match buildLoop (buildFuel elevatorStates) elevatorStates
              [mkCell root []] [0] with
      | Ok h =>
          match toNode (length h) h 0 with
          | Some t => Ok t
          | None => TypeError
          end
      | TypeError => TypeError
      | OutOfFuel => OutOfFuel
      end
  end.

(** ** The search *)

(** Number of nodes of a tree. *)
Fixpoint size (n : Node) : nat :=
  match n with
  | mkNode _ cs => S (list_sum (map size cs))
  end.

(** The [if]/[else] that maintains [pathStack]; [currentLevel] becomes
    [currentNodeTime] on both branches. *)
Definition updatePath (currentLevel : nat) (pathStack : list string)
    (currentNodeElevator : string) (currentNodeTime : nat) : list string :=
  if currentLevel <? currentNodeTime
  then pathStack ++ [currentNodeElevator]
  else Nat.iter (currentLevel - currentNodeTime + 1) pop pathStack
         ++ [currentNodeElevator].

(** The [while (arrayOfNodesToTraverse.length > 0)] loop; [None] is
    [null]. *)
Fixpoint searchLoop (fuel : nat) (finalFloor finalTimeInterval : Num)
    (currentLevel : nat) (pathStack : list string)
    (arrayOfNodesToTraverse : list Node) : Outcome (option string) :=
  match arrayOfNodesToTraverse with
  | [] => Ok None
  | currentNode :: rest =>
      match fuel with
      | O => OutOfFuel
      | S fuel' =>
          let currentNodeFloor := floor (data currentNode) in
          let currentNodeElevator := elevator (data currentNode) in
          let currentNodeTime := time (data currentNode) in
          let pathStack' :=
            updatePath currentLevel pathStack currentNodeElevator
              currentNodeTime in
          let currentLevel' := currentNodeTime in
          let queue' :=
            if ltNum currentNodeTime finalTimeInterval
            then children currentNode ++ rest
            else rest in
          if eqNum currentLevel' finalTimeInterval
             && strictEqNum currentNodeFloor finalFloor
          then Ok (Some (substring1 (join pathStack')))
          else searchLoop fuel' finalFloor finalTimeInterval currentLevel'
                 pathStack' queue'
      end
  end.

(** [findFinalDestinationPath(finalFloor, finalTimeInterval)] on the tree
    rooted at [root]. *)
Definition findFinalDestinationPath (root : Node)
    (finalFloor finalTimeInterval : Num) : Outcome (option string) :=
  searchLoop (size root) finalFloor finalTimeInterval 0 [] [root].

Definition noSolution : string := "There is no solution".

(** [path || "There is no solution"]: [null] and the empty string are
    falsy. *)
Definition orNoSolution (path : option string) : string :=
  match path with
  | None => noSolution
  | Some EmptyString => noSolution
  | Some p => p
  end.

(** [findElevatorPath], given the parsed floor and time. *)
Definition findElevatorPath (elevatorStates : Schedule)
    (startingElevator : string) (finalFloor finalTimeInterval : Num)
    : Outcome string :=
  match buildElevatorPathTree elevatorStates startingElevator with
  | Ok root =>
      match findFinalDestinationPath root finalFloor finalTimeInterval with
      | Ok path => Ok (orNoSolution path)
      | TypeError => TypeError
      | OutOfFuel => OutOfFuel
      end
  | TypeError => TypeError
  | OutOfFuel => OutOfFuel
  end.

(** ** The test cases of the source *)

Definition testCase1 : Schedule :=
  [ ("A", [1; 4; 3; 2; 2]%Z);
    ("B", [3; 3; 3; 4; 2]%Z);
    ("C", [2; 2; 6; 6; 6]%Z);
    ("D", [6; 1; 1; 4; 5]%Z) ].

Definition testCase2 : Schedule :=
  [ ("A", [1; 7; 7; 7; 5; 2; 1]%Z);
    ("B", [2; 9; 6; 3; 9; 8; 3]%Z);
    ("C", [9; 8; 7; 5; 5; 4; 5]%Z);
    ("D", [2; 1; 3; 4; 8; 1; 2]%Z);
    ("E", [8; 1; 5; 5; 6; 7; 7]%Z) ].

Definition testCase3 : Schedule :=
  [ ("A", [1; 7; 7; 7; 7; 2; 1]%Z);
    ("B", [2; 9; 6; 3; 9; 8; 3]%Z);
    ("C", [9; 8; 7; 5; 5; 4; 5]%Z);
    ("D", [2; 1; 3; 4; 8; 1; 2]%Z);
    ("E", [8; 1; 5; 5; 6; 7; 7]%Z) ].

(** ** What one iteration of the builder gives a node *)

(** The child that the body of the [for ... in] loop creates for one key,
    if any, for a node with data [d] whose continuation floor is [next]. *)
Definition transferChild (elevatorStates : Schedule) (d : NodeData)
    (next : option Z) (name : string) : list NodeData :=
  if truthy (floorOf elevatorStates name (time d))
     && negb (String.eqb (elevator d) name)
     && strictEq next (floorOf elevatorStates name (time d))
  then [mkData name (floorOf elevatorStates name (time d)) (time d + 1)]
  else [].

(** The data of the children that the iteration of the [while] loop that
    expands a node with data [d] creates, in the order of creation. *)
Definition childData (elevatorStates : Schedule) (d : NodeData)
    : list NodeData :=
  match get elevatorStates (elevator d) with
  | None => []
  | Some row =>
      let next := row !! time d in
      (if truthy next then [mkData (elevator d) next (time d + 1)] else [])
      ++ flat_map (transferChild elevatorStates d next) (keys elevatorStates)
  end.

(** The tree below a node with data [d], cut [fuel] levels down. *)
Fixpoint expand (fuel : nat) (elevatorStates : Schedule) (d : NodeData)
    : Node :=
  match fuel with
  | O => mkNode d []
  | S fuel' =>
      mkNode d (map (expand fuel' elevatorStates) (childData elevatorStates d))
  end.

(** The tree below a node with data [d]: no node has a time beyond the
    horizon, so this many levels are all there are. *)
Definition pathTree (elevatorStates : Schedule) (d : NodeData) : Node :=
  expand (S (horizon elevatorStates) - time d) elevatorStates d.

(** All nodes of a tree, the root first. *)
Fixpoint nodes (n : Node) : list Node :=
  match n with
  | mkNode _ cs => n :: flat_map nodes cs
  end.

(** The nodes of a tree other than its root. *)
Definition descendants (n : Node) : list Node :=
  flat_map nodes (children n).

(** ** Notions used to state and prove the properties *)

(** The data of the root node for a starting elevator of the schedule. *)
Definition rootData (elevatorStates : Schedule) (startingElevator : string)
    : NodeData :=
  mkData startingElevator (floorOf elevatorStates startingElevator 0) 0.

(** Attaching a list of children to [p], one after the other. *)
Definition attachAll (p : nat) (ds : list NodeData) (st : Heap * list nat)
    : Heap * list nat :=
  fold_left (fun st d => attach p d st) ds st.

(** *** The work-list loop of the builder *)

(** Cell [i] has been expanded: its children are consecutive cells, all
    allocated after [i], carrying the data listed by [childData]. *)
Definition expanded (s : Schedule) (h : Heap) (i : nat) (cell : Cell) : Prop :=
  exists base,
    i < base
    /\ ckids cell = seq base (length (childData s (cdata cell)))
    /\ forall j d, childData s (cdata cell) !! j = Some d ->
         exists c, h !! (base + j) = Some c /\ cdata c = d.

(** Invariant of the loop when the work list holds the cells from [k]
    on: the cells before [k] are expanded, the others have no children
    yet, and every cell rides an elevator of the schedule. *)
Record buildInv (s : Schedule) (k : nat) (h : Heap) : Prop := {
  inv_le : k <= length h;
  inv_keys : forall i cell,
    h !! i = Some cell -> In (elevator (cdata cell)) (keys s);
  inv_done : forall i cell,
    h !! i = Some cell -> i < k -> expanded s h i cell;
  inv_todo : forall i cell,
    h !! i = Some cell -> k <= i -> ckids cell = []
}.

(** Number of nodes still to be visited: the trees below the cells of
    the work list. *)
Definition pending (s : Schedule) (k : nat) (h : Heap) : nat :=
  list_sum (map (fun c => size (pathTree s (cdata c))) (drop k h)).

(** Data is never overwritten. *)
Definition dataStable (h h' : Heap) : Prop :=
  forall i c, h !! i = Some c -> exists c', h' !! i = Some c' /\ cdata c' = cdata c.

(** *** Trees and paths in them *)

(** Every node of [n] has as time index [k] plus its depth in [n]. *)
Inductive timed : nat -> Node -> Prop :=
| timed_node (k : nat) (d : NodeData) (cs : list Node) :
    time d = k -> Forall (timed (S k)) cs -> timed k (mkNode d cs).

(** [reach root ns n]: [ns] lists the nodes on the way down from [root] to
    [n], both included. *)
Inductive reach (root : Node) : list Node -> Node -> Prop :=
| reach_root : reach root [root] root
| reach_child (ns : list Node) (n c : Node) :
    reach root ns n -> In c (children n) -> reach root (ns ++ [c]) c.

(** The elevator identifiers of a list of nodes. *)
Definition elevators (ns : list Node) : list string :=
  map (fun n => elevator (data n)) ns.

(** The node is at the target: the condition of the last [if] of the search
    loop. *)
Definition atTarget (finalFloor finalTimeInterval : Num) (n : Node) : bool :=
  eqNum (time (data n)) finalTimeInterval
  && strictEqNum (floor (data n)) finalFloor.

(** *** The work list and the path stack of the search *)

(** The time indices of the work list never increase from front to back. *)
Fixpoint descending (queue : list Node) : Prop :=
  match queue with
  | [] => True
  | c :: rest =>
      (forall c', In c' rest -> time (data c') <= time (data c))
      /\ descending rest
  end.

(** A node of the work list hangs below a node whose path from the root
    is the part of the stack up to the node's own time index. *)
Definition queued (root : Node) (stack : list string) (c : Node) : Prop :=
  exists ns n,
    reach root ns n /\ In c (children n)
    /\ elevators ns = take (time (data c)) stack.

(** What the search promises about a returned string. *)
Definition pathResult (finalFloor finalTimeInterval : Num) (root : Node)
    (r : option string) : Prop :=
  forall p, r = Some p ->
    exists ns n,
      reach root ns n
      /\ atTarget finalFloor finalTimeInterval n = true
      /\ p = substring1 (join (elevators ns)).

(** *** Following a path on the schedule *)

(** The rider is on floor [fl] at time step [T] and then rides the
    elevators of [path], one per time step; the result is the floor reached.
    The step from [T] to [T + 1] reads index [T] of the schedule, as the
    builder does. *)
Fixpoint ride (s : Schedule) (T : nat) (fl : option Z) (path : list string)
    : option Z :=
  match path with
  | [] => fl
  | e :: rest => ride s (S T) (floorOf s e T) rest
  end.

(** The floor reached from the starting elevator at time 0. *)
Definition simulate (s : Schedule) (start : string) (path : list string)
    : option Z :=
  ride s 0 (floorOf s start 0) path.

(** The step at time step [T] from elevator [prev] to elevator [next] is a
    stay, or a transfer between two elevators that the schedule puts on the
    same floor at that step. *)
Definition stepOk (s : Schedule) (prev next : string) (T : nat) : bool :=
  String.eqb next prev
  || (truthy (floorOf s next T)
      && strictEq (floorOf s prev T) (floorOf s next T)).

(** Every step of [path], started on [prev] at time step [T], is a stay or
    such a transfer. *)
Fixpoint transfersOk (s : Schedule) (prev : string) (T : nat)
    (path : list string) : bool :=
  match path with
  | [] => true
  | e :: rest => stepOk s prev e T && transfersOk s e (S T) rest
  end.

(** ** Breadth-first traversal *)

(** The [while] loop of [Tree.traverseBreadthFirst]: the front node is
    shifted off the work list, its children are pushed at the back, and the
    callback is called on it.  The callback acts on a state of its own and
    leaves the tree alone. *)
Fixpoint traverseLoop {St : Type} (fuel : nat) (callback : Node -> St -> St)
    (arrayOfNodesToTraverse : list Node) (st : St) : Outcome St :=
  match arrayOfNodesToTraverse with
  | [] => Ok st
  | currentNode :: rest =>
      match fuel with
      | O => OutOfFuel
      | S fuel' =>
          traverseLoop fuel' callback (rest ++ children currentNode)
            (callback currentNode st)
      end
  end.

(** [traverseBreadthFirst(callback)] on the tree rooted at [root]. *)
Definition traverseBreadthFirst {St : Type} (root : Node)
    (callback : Node -> St -> St) (st : St) : Outcome St :=
  traverseLoop (size root) callback [root] st.

(** The nodes in the order in which the loop shifts them off the work
    list. *)
Fixpoint bfsOrder (fuel : nat) (queue : list Node) : list Node :=
  match queue with
  | [] => []
  | n :: rest =>
      match fuel with
      | O => []
      | S fuel' => n :: bfsOrder fuel' (rest ++ children n)
      end
  end.

(** The time indices of a list of nodes never decrease from front to
    back. *)
Fixpoint ascending (l : list Node) : Prop :=
  match l with
  | [] => True
  | a :: rest =>
      (forall b, In b rest -> time (data a) <= time (data b))
      /\ ascending rest
  end.

(** ** The order in which the builder creates the nodes *)

(** Number of cells allocated once the cells before [k] have been expanded:
    the root and the children of those cells. *)
Definition allocated (k : nat) (h : Heap) : nat :=
  S (length (concat (map ckids (take k h)))).

(** The heap when the cells before [k] have been expanded holds nothing but
    the root and their children, and the children of every expanded cell
    were allocated one after the other, right after all the cells that
    existed when the cell was expanded. *)
Record layoutInv (k : nat) (h : Heap) : Prop := {
  lay_len : length h = allocated k h;
  lay_kids : forall i cell,
    i < k -> h !! i = Some cell ->
    ckids cell = seq (allocated i h) (length (ckids cell));
  lay_gt : forall i, i < k -> i < allocated i h
}.

(** ** The search as a recursive function *)

(** The first defined value of a list. *)
Fixpoint firstSome {A : Type} (l : list (option A)) : option A :=
  match l with
  | [] => None
  | Some a :: _ => Some a
  | None :: rest => firstSome rest
  end.

(** Pre-order search below [n] for a node at the target, the children
    taken in the order of the [children] array; the result is the list of
    the elevator identifiers from the root to the node found, [prefix]
    being the identifiers of the ancestors of [n]. *)
Fixpoint dfsFind (finalFloor finalTimeInterval : Num) (prefix : list string)
    (n : Node) : option (list string) :=
  match n with
  | mkNode d cs =>
      if atTarget finalFloor finalTimeInterval (mkNode d cs)
      then Some (prefix ++ [elevator d])
      else firstSome
             (map (dfsFind finalFloor finalTimeInterval
                     (prefix ++ [elevator d])) cs)
  end.

(** The string that the search returns for a path stack. *)
Definition encode (pathStack : list string) : string :=
  substring1 (join pathStack).

(** ** Riding the schedule *)

(** The rider on elevator [cur] at time step [T] can ride the elevators of
    [path], one per time step: at every step the elevator boarded (which
    may be the current one) is, at the index of that step, on the floor of
    the current elevator, and that floor is defined and not 0. *)
Fixpoint rideable (s : Schedule) (cur : string) (T : nat)
    (path : list string) : bool :=
  match path with
  | [] => true
  | e :: rest =>
      truthy (floorOf s e T)
      && strictEq (floorOf s cur T) (floorOf s e T)
      && rideable s e (S T) rest
  end.

(** * Lemmas *)

(** ** Schedules *)

Lemma get_Some_In (s : Schedule) (name : string) (row : list Z) :
  get s name = Some row -> In (name, row) s.
Proof.
  induction s as [|[k r] s IH]; simpl; [discriminate|].
  destruct (String.eqb_spec k name) as [->|Hne].
  - intros [= ->]. now left.
  - intros H. right. now apply IH.
Qed.

Lemma get_is_Some (s : Schedule) (name : string) :
  In name (keys s) -> exists row, get s name = Some row.
Proof.
  induction s as [|[k r] s IH]; simpl; [tauto|].
  intros [->|Hin].
  - rewrite String.eqb_refl. eauto.
  - destruct (String.eqb k name); eauto.
Qed.

Lemma get_Some_key (s : Schedule) (name : string) (row : list Z) :
  get s name = Some row -> In name (keys s).
Proof.
  intros H. apply get_Some_In in H.
  unfold keys. apply in_map_iff. now exists (name, row).
Qed.

Lemma get_NoDup (s : Schedule) (name : string) (row : list Z) :
  NoDup (keys s) -> In (name, row) s -> get s name = Some row.
Proof.
  induction s as [|[k r] s IH]; simpl; [tauto|].
  intros Hnd Hin. apply NoDup_cons in Hnd as [Hk Hnd].
  destruct Hin as [[= -> ->]|Hin].
  - now rewrite String.eqb_refl.
  - destruct (String.eqb_spec k name) as [->|Hne]; [|now apply IH].
    exfalso. apply Hk. apply list_elem_of_In, in_map_iff.
    now exists (name, row).
Qed.

Lemma horizon_In (s : Schedule) (entry : string * list Z) :
  In entry s -> length entry.2 <= horizon s.
Proof.
  induction s as [|e s IH]; [intros []|].
  unfold horizon in *. simpl. intros [->|Hin]; [lia|].
  specialize (IH Hin). lia.
Qed.

Lemma horizon_get (s : Schedule) (name : string) (row : list Z) :
  get s name = Some row -> length row <= horizon s.
Proof. intros H. apply get_Some_In in H. now apply (horizon_In s (name, row)). Qed.

Lemma truthy_Some (v : option Z) :
  truthy v = true -> exists z, v = Some z /\ z <> 0%Z.
Proof.
  destruct v as [z|]; simpl; [|discriminate].
  intros H. exists z. split; [reflexivity|].
  apply negb_true_iff in H. now apply Z.eqb_neq.
Qed.

Lemma strictEq_eq (a b : option Z) : strictEq a b = true -> a = b.
Proof.
  destruct a, b; simpl; try discriminate; try reflexivity.
  intros H. apply Z.eqb_eq in H. now subst.
Qed.

(** ** Children created by one iteration *)

Section ChildData.
Variable s : Schedule.

Lemma floorOf_lt (name : string) (i : nat) (z : Z) :
  floorOf s name i = Some z -> i < horizon s /\ In name (keys s).
Proof.
  unfold floorOf. destruct (get s name) as [row|] eqn:Hrow; simpl;
    [|discriminate].
  intros Hz. apply lookup_lt_Some in Hz.
  pose proof (horizon_get _ _ _ Hrow).
  split; [lia|]. eapply get_Some_key; eauto.
Qed.

Lemma transferChild_In (d c : NodeData) (next : option Z) (name : string) :
  In c (transferChild s d next name) ->
  c = mkData name (floorOf s name (time d)) (time d + 1)
  /\ truthy (floorOf s name (time d)) = true
  /\ elevator d <> name
  /\ next = floorOf s name (time d).
Proof.
  unfold transferChild.
  destruct (truthy (floorOf s name (time d))) eqn:Ht; simpl; [|tauto].
  destruct (String.eqb_spec (elevator d) name) as [He|He]; simpl; [tauto|].
  destruct (strictEq next (floorOf s name (time d))) eqn:Hs; simpl; [|tauto].
  intros [<-|[]]. apply strictEq_eq in Hs. auto.
Qed.

(** Every child is one time step later, rides an elevator of the
    schedule, and stands on the truthy floor that both its own elevator
    and its parent's elevator have at the parent's time index. *)
Lemma childData_In (d c : NodeData) :
  In c (childData s d) ->
  time c = time d + 1
  /\ In (elevator c) (keys s)
  /\ truthy (floor c) = true
  /\ floor c = floorOf s (elevator c) (time d)
  /\ floor c = floorOf s (elevator d) (time d)
  /\ time d < horizon s.
Proof.
  unfold childData. destruct (get s (elevator d)) as [row|] eqn:Hrow;
    [|intros []].
  assert (Hfd : floorOf s (elevator d) (time d) = row !! time d)
    by (unfold floorOf; now rewrite Hrow).
  intros Hin. apply in_app_iff in Hin as [Hin|Hin].
  - destruct (truthy (row !! time d)) eqn:Ht; [|destruct Hin].
    destruct Hin as [<-|[]]. simpl.
    apply truthy_Some in Ht as Hz. destruct Hz as (z & Hz & _).
    rewrite <- Hfd in Hz. apply floorOf_lt in Hz as [Hlt Hkey].
    repeat split; auto.
  - apply in_flat_map in Hin as (name & Hname & Hc).
    apply transferChild_In in Hc as (-> & Ht & Hne & Hnext). simpl.
    apply truthy_Some in Ht as Hz. destruct Hz as (z & Hz & _).
    apply floorOf_lt in Hz as [Hlt Hkey].
    repeat split; auto. congruence.
Qed.

Lemma length_transferChild (d : NodeData) (next : option Z) (name : string) :
  length (transferChild s d next name) <= 1.
Proof. unfold transferChild. destruct (_ && _); simpl; lia. Qed.

Lemma length_flat_map_transferChild (d : NodeData) (next : option Z)
    (l : list string) :
  length (flat_map (transferChild s d next) l) <= length l.
Proof.
  induction l as [|e l IH]; simpl; [lia|].
  rewrite length_app. pose proof (length_transferChild d next e). lia.
Qed.

Lemma length_childData (d : NodeData) :
  length (childData s d) <= 1 + length s.
Proof.
  unfold childData. destruct (get s (elevator d)); simpl; [|lia].
  rewrite length_app.
  pose proof (length_flat_map_transferChild d (l !! time d) (keys s)).
  unfold keys in *. rewrite length_map in *.
  destruct (truthy _); simpl; lia.
Qed.

Lemma childData_beyond_horizon (d : NodeData) :
  horizon s <= time d -> childData s d = [].
Proof.
  intros H. destruct (childData s d) as [|c l] eqn:E; [reflexivity|].
  assert (Hin : In c (childData s d)) by (rewrite E; now left).
  apply childData_In in Hin. lia.
Qed.

(** ** The tree below a node *)

Lemma data_expand (fuel : nat) (d : NodeData) : data (expand fuel s d) = d.
Proof. now destruct fuel. Qed.

Lemma data_pathTree (d : NodeData) : data (pathTree s d) = d.
Proof. apply data_expand. Qed.

Lemma children_pathTree (d : NodeData) :
  children (pathTree s d) = map (pathTree s) (childData s d).
Proof.
  unfold pathTree.
  destruct (le_lt_dec (horizon s) (time d)) as [Hle|Hlt].
  - destruct (S (horizon s) - time d); simpl;
      now rewrite childData_beyond_horizon.
  - replace (S (horizon s) - time d) with (S (horizon s - time d)) by lia.
    simpl. apply map_ext_in. intros c Hc.
    apply childData_In in Hc as (Ht & _). rewrite Ht.
    f_equal. lia.
Qed.

Lemma pathTree_unfold (d : NodeData) :
  pathTree s d = mkNode d (map (pathTree s) (childData s d)).
Proof.
  pose proof (data_pathTree d) as Hd.
  pose proof (children_pathTree d) as Hc.
  destruct (pathTree s d) as [d' cs]. simpl in *. now subst.
Qed.

End ChildData.

(** ** One iteration of the builder on the heap *)

Section BuildStep.
Variable s : Schedule.

Lemma fold_considerTransfer (p : nat) (d : NodeData) (next : option Z)
    (names : list string) (st : Heap * list nat) :
  fold_left (considerTransfer s p (elevator d) (time d) next) names st
  = attachAll p (flat_map (transferChild s d next) names) st.
Proof.
  revert st. induction names as [|name names IH]; intros st; [reflexivity|].
  simpl. unfold attachAll. rewrite fold_left_app. fold (attachAll p).
  rewrite IH. f_equal.
  unfold considerTransfer, transferChild.
  destruct (_ && _); reflexivity.
Qed.

(** The iteration attaches exactly the children listed by [childData]. *)
Lemma expandStep_attachAll (p : nat) (h : Heap) (q : list nat) (cell : Cell) :
  h !! p = Some cell ->
  In (elevator (cdata cell)) (keys s) ->
  expandStep s p (h, q) = Ok (attachAll p (childData s (cdata cell)) (h, q)).
Proof.
  intros Hp Hkey. unfold expandStep. simpl. rewrite Hp.
  destruct (get_is_Some _ _ Hkey) as [row Hrow].
  unfold childData. rewrite Hrow. f_equal.
  rewrite fold_considerTransfer.
  unfold attachAll at 2. rewrite fold_left_app.
  destruct (truthy (row !! time (cdata cell))); reflexivity.
Qed.

Lemma expandStep_TypeError_key (p : nat) (h : Heap) (q : list nat)
    (cell : Cell) :
  h !! p = Some cell ->
  ~ In (elevator (cdata cell)) (keys s) ->
  expandStep s p (h, q) = TypeError.
Proof.
  intros Hp Hkey. unfold expandStep. simpl. rewrite Hp.
  destruct (get s (elevator (cdata cell))) eqn:E; [|reflexivity].
  exfalso. eauto using get_Some_key.
Qed.

End BuildStep.

(** The heap and work list after attaching [ds] to cell [p]: the children
    occupy the next free indices, in order. *)
Lemma attachAll_closed (p : nat) (ds : list NodeData) (h : Heap)
    (q : list nat) :
  p < length h ->
  attachAll p ds (h, q)
  = (alter (fun c => mkCell (cdata c)
                       (ckids c ++ seq (length h) (length ds))) p h
       ++ map (fun d => mkCell d []) ds,
     q ++ seq (length h) (length ds)).
Proof.
  revert h q. induction ds as [|d ds IH]; intros h q Hp.
  - simpl. rewrite !app_nil_r. f_equal.
    symmetry. apply list_alter_id. intros [cd ck]. simpl.
    now rewrite app_nil_r.
  - simpl. unfold attach, newNode, addChild. simpl.
    rewrite alter_app_l by assumption.
    rewrite IH by (rewrite length_app, length_alter; simpl; lia).
    rewrite length_app, length_alter. simpl.
    replace (length h + 1) with (S (length h)) by lia.
    rewrite alter_app_l by (rewrite length_alter; lia).
    rewrite list_alter_alter_eq.
    rewrite <- !app_assoc. simpl. f_equal.
    f_equal. apply list_alter_ext; [|reflexivity].
    intros [cd ck] _. simpl. now rewrite <- app_assoc.
Qed.

Lemma lookup_map {A B : Type} (f : A -> B) (l : list A) (i : nat) :
  map f l !! i = f <$> l !! i.
Proof.
  revert i. induction l as [|x l IH]; intros [|i]; simpl; auto.
Qed.

(** ** The work-list loop *)

Section BuildLoop.
Variable s : Schedule.

Lemma size_pathTree (d : NodeData) :
  size (pathTree s d)
  = S (list_sum (map (fun c => size (pathTree s c)) (childData s d))).
Proof.
  rewrite pathTree_unfold at 1. simpl. now rewrite map_map.
Qed.

Lemma expand_inv (k : nat) (h : Heap) (cell : Cell) :
  buildInv s k h ->
  h !! k = Some cell ->
  let cd := childData s (cdata cell) in
  let h' := alter (fun c => mkCell (cdata c)
                     (ckids c ++ seq (length h) (length cd))) k h
            ++ map (fun d => mkCell d []) cd in
  buildInv s (S k) h'
  /\ dataStable h h'
  /\ pending s k h = S (pending s (S k) h').
Proof.
  intros [Hle Hkeys Hdone Htodo] Hk cd h'.
  pose proof (lookup_lt_Some _ _ _ Hk) as Hlt.
  assert (Hlen : length h' = length h + length cd).
  { unfold h'. now rewrite length_app, length_alter, length_map. }
  assert (Hold : forall i, i < length h -> i <> k -> h' !! i = h !! i).
  { intros i Hi Hne. unfold h'.
    rewrite lookup_app_l by (now rewrite length_alter).
    now apply list_lookup_alter_ne. }
  assert (Hself : h' !! k = Some (mkCell (cdata cell) (seq (length h) (length cd)))).
  { unfold h'. rewrite lookup_app_l by (now rewrite length_alter).
    rewrite list_lookup_alter_eq, Hk. simpl.
    now rewrite (Htodo k cell Hk). }
  assert (Hnew : forall j, h' !! (length h + j) = (fun d => mkCell d []) <$> cd !! j).
  { intros j. unfold h'. rewrite lookup_app_r by (rewrite length_alter; lia).
    rewrite length_alter.
    replace (length h + j - length h) with j by lia.
    apply lookup_map. }
  assert (Hst : dataStable h h').
  { intros i c Hi. pose proof (lookup_lt_Some _ _ _ Hi) as Hil.
    destruct (decide (i = k)) as [->|Hne].
    - rewrite Hself. eexists; split; [reflexivity|]. simpl. congruence.
    - rewrite Hold by assumption. eauto. }
  split; [|split; [exact Hst|]].
  - constructor.
    + lia.
    + intros i c Hi.
      destruct (decide (i < length h)) as [Hil|Hil].
      * destruct (lookup_lt_is_Some_2 h i Hil) as [c0 Hc0].
        destruct (Hst i c0 Hc0) as (c' & Hc' & Hd).
        rewrite Hi in Hc'. injection Hc' as <-. rewrite Hd. eauto.
      * replace i with (length h + (i - length h)) in Hi by lia.
        rewrite Hnew in Hi.
        destruct (cd !! (i - length h)) as [d|] eqn:Hd; [|discriminate].
        injection Hi as <-. simpl.
        apply list_elem_of_lookup_2, list_elem_of_In in Hd.
        apply childData_In in Hd. tauto.
    + intros i c Hi Hik.
      destruct (decide (i = k)) as [->|Hne].
      * rewrite Hself in Hi. injection Hi as <-.
        exists (length h). simpl. split; [lia|]. split; [reflexivity|].
        intros j d Hj. rewrite Hnew. fold cd in Hj. rewrite Hj. simpl. eauto.
      * rewrite Hold in Hi by lia.
        destruct (Hdone i c Hi) as (base & Hb & Hkids & Hdata); [lia|].
        exists base. split; [assumption|]. split; [assumption|].
        intros j d Hj. destruct (Hdata j d Hj) as (c0 & Hc0 & Hd0).
        destruct (Hst _ _ Hc0) as (c' & Hc' & Hd').
        exists c'. split; [assumption|congruence].
    + intros i c Hi Hik.
      destruct (decide (i < length h)) as [Hil|Hil].
      * rewrite Hold in Hi by lia. apply (Htodo i c Hi). lia.
      * replace i with (length h + (i - length h)) in Hi by lia.
        rewrite Hnew in Hi.
        destruct (cd !! (i - length h)) as [d|]; [|discriminate].
        now injection Hi as <-.
  - unfold pending.
    rewrite (drop_S h cell k Hk). simpl.
    rewrite size_pathTree. fold cd. f_equal.
    unfold h'. rewrite drop_app_le by (rewrite length_alter; lia).
    rewrite drop_alter_lt by lia.
    rewrite map_app, list_sum_app, map_map. simpl. lia.
Qed.

(** The loop runs to completion on any fuel that covers the nodes still
    to be visited, and leaves every cell expanded. *)
Lemma buildLoop_runs (fuel k : nat) (h : Heap) :
  buildInv s k h ->
  pending s k h <= fuel ->
  exists h',
    buildLoop fuel s h (seq k (length h - k)) = Ok h'
    /\ buildInv s (length h') h'
    /\ dataStable h h'.
Proof.
  revert k h. induction fuel as [|fuel IH]; intros k h Hinv Hfuel.
  - destruct (decide (k = length h)) as [->|Hne].
    + rewrite Nat.sub_diag. simpl. exists h.
      split; [reflexivity|]. split; [assumption|].
      intros i c Hi. eauto.
    + exfalso. pose proof (inv_le _ _ _ Hinv).
      destruct (lookup_lt_is_Some_2 h k) as [cell Hk]; [lia|].
      destruct (expand_inv k h cell Hinv Hk) as (_ & _ & Hp). lia.
  - destruct (decide (k = length h)) as [->|Hne].
    + rewrite Nat.sub_diag. simpl. exists h.
      split; [reflexivity|]. split; [assumption|].
      intros i c Hi. eauto.
    + pose proof (inv_le _ _ _ Hinv).
      destruct (lookup_lt_is_Some_2 h k) as [cell Hk]; [lia|].
      destruct (expand_inv k h cell Hinv Hk) as (Hinv' & Hst & Hp).
      replace (length h - k) with (S (length h - S k)) by lia.
      simpl.
      rewrite (expandStep_attachAll s k h _ cell Hk (inv_keys _ _ _ Hinv _ _ Hk)).
      rewrite attachAll_closed by lia. simpl.
      set (cd := childData s (cdata cell)) in *.
      set (h' := alter _ k h ++ map _ cd) in *.
      assert (Hlen : length h' = length h + length cd).
      { unfold h'. now rewrite length_app, length_alter, length_map. }
      destruct (IH (S k) h' Hinv') as (h'' & Hrun & Hinv'' & Hst'); [lia|].
      exists h''. split; [|split; [assumption|]].
      * rewrite <- Hrun. f_equal.
        rewrite Hlen.
        replace (length h + length cd - S k)
          with ((length h - S k) + length cd) by lia.
        rewrite seq_app. do 2 f_equal. lia.
      * intros i c Hi. destruct (Hst i c Hi) as (c' & Hc' & Hd').
        destruct (Hst' i c' Hc') as (c'' & Hc'' & Hd'').
        exists c''. split; [assumption|congruence].
Qed.

(** Reading back an expanded s heap gives the tree of [pathTree]. *)
Lemma toNode_pathTree (h : Heap) :
  buildInv s (length h) h ->
  forall depth i cell,
    h !! i = Some cell ->
    length h - i <= depth ->
    toNode depth h i = Some (pathTree s (cdata cell)).
Proof.
  intros Hinv. induction depth as [|depth IH]; intros i cell Hi Hdepth.
  - apply lookup_lt_Some in Hi. lia.
  - pose proof (lookup_lt_Some _ _ _ Hi) as Hil.
    simpl. rewrite Hi. simpl.
    destruct (inv_done _ _ _ Hinv i cell Hi Hil) as (base & Hb & Hkids & Hdata).
    rewrite pathTree_unfold.
    assert (Hm : mapM (toNode depth h) (ckids cell)
                 = Some (map (pathTree s) (childData s (cdata cell)))).
    { apply mapM_Some. rewrite Hkids. apply Forall2_lookup. intros j.
      rewrite lookup_map.
      destruct (childData s (cdata cell) !! j) as [d|] eqn:Hd.
      - rewrite lookup_seq_lt by (eapply lookup_lt_Some; eauto).
        simpl. constructor.
        destruct (Hdata j d Hd) as (c & Hc & <-).
        apply IH; [assumption|lia].
      - rewrite lookup_seq_ge by (now apply lookup_ge_None).
        simpl. constructor. }
    rewrite Hm. reflexivity.
Qed.

Lemma list_sum_bound {A : Type} (f : A -> nat) (m : nat) (l : list A) :
  (forall x, In x l -> f x <= m) -> list_sum (map f l) <= length l * m.
Proof.
  induction l as [|x l IH]; simpl; intros H; [lia|].
  pose proof (H x (or_introl eq_refl)).
  assert (list_sum (map f l) <= length l * m) by (apply IH; auto).
  lia.
Qed.

Lemma fullTreeSize_pos (b k : nat) : 1 <= fullTreeSize b k.
Proof. destruct k; simpl; lia. Qed.

(** A tree whose levels end at the horizon has at most as many nodes as
    the full tree of that depth. *)
Lemma size_pathTree_bound (n : nat) (d : NodeData) :
  horizon s - time d <= n ->
  size (pathTree s d) <= fullTreeSize (1 + length s) n.
Proof.
  revert d. induction n as [|n IH]; intros d Hn.
  - rewrite size_pathTree, childData_beyond_horizon by lia. simpl. lia.
  - rewrite size_pathTree.
    assert (Hsum : list_sum (map (fun c => size (pathTree s c)) (childData s d))
                   <= length (childData s d) * fullTreeSize (1 + length s) n).
    { apply list_sum_bound. intros c Hc. apply IH.
      apply childData_In in Hc. lia. }
    pose proof (length_childData s d) as Hlen.
    change (fullTreeSize (1 + length s) (S n))
      with (1 + (1 + length s) * fullTreeSize (1 + length s) n).
    nia.
Qed.

(** The builder returns the tree of all paths from the root, and throws
    exactly when the starting elevator is not a key of the schedule. *)
Lemma buildElevatorPathTree_pathTree (start : string) (row : list Z) :
  get s start = Some row ->
  buildElevatorPathTree s start
  = Ok (pathTree s (mkData start (row !! 0) 0)).
Proof.
  intros Hrow. unfold buildElevatorPathTree. rewrite Hrow.
  set (root := mkData start (row !! 0) 0).
  assert (Hinv : buildInv s 0 [mkCell root []]).
  { constructor; simpl.
    - lia.
    - intros [|i] c; simpl; [|discriminate]. intros [= <-]. simpl.
      eapply get_Some_key; eauto.
    - intros i c _ Hi. lia.
    - intros [|i] c; simpl; [|discriminate]. now intros [= <-]. }
  destruct (buildLoop_runs (buildFuel s) 0 [mkCell root []] Hinv)
    as (h & Hrun & Hfin & Hst).
  { unfold pending.
    change (drop 0 [mkCell root []]) with [mkCell root []].
    cbn [map cdata].
    assert (Hb : size (pathTree s root) <= buildFuel s)
      by (apply size_pathTree_bound; simpl; lia).
    unfold list_sum, foldr. lia. }
  simpl in Hrun. rewrite Hrun.
  destruct (Hst 0 (mkCell root []) eq_refl) as (c & Hc & Hd).
  rewrite (toNode_pathTree h Hfin (length h) 0 c Hc) by lia.
  simpl in Hd. now rewrite Hd.
Qed.

Lemma buildElevatorPathTree_TypeError (start : string) :
  get s start = None -> buildElevatorPathTree s start = TypeError.
Proof. intros H. unfold buildElevatorPathTree. now rewrite H. Qed.

End BuildLoop.

(** ** Trees whose time indices are their depths *)

Lemma timed_time (k : nat) (n : Node) : timed k n -> time (data n) = k.
Proof. now intros []. Qed.

Lemma timed_child (k : nat) (n c : Node) :
  timed k n -> In c (children n) -> timed (S k) c.
Proof.
  intros [k' d cs _ Hcs] Hc. simpl in Hc.
  rewrite Forall_forall in Hcs. apply Hcs. now apply list_elem_of_In.
Qed.

Lemma timed_pathTree (s : Schedule) (d : NodeData) :
  timed (time d) (pathTree s d).
Proof.
  unfold pathTree. generalize (S (horizon s) - time d). intros fuel.
  revert d. induction fuel as [|fuel IH]; intros d; simpl.
  - constructor; [reflexivity|constructor].
  - constructor; [reflexivity|].
    apply Forall_forall. intros c Hc.
    apply list_elem_of_In, in_map_iff in Hc as (dc & <- & Hdc).
    apply childData_In in Hdc as (Ht & _).
    replace (S (time d)) with (time dc) by lia. apply IH.
Qed.

Lemma reach_timed (root : Node) (ns : list Node) (n : Node) :
  timed 0 root ->
  reach root ns n ->
  timed (time (data n)) n /\ length ns = S (time (data n)).
Proof.
  intros Hroot. induction 1 as [|ns n c Hr [IHt IHl] Hc].
  - rewrite (timed_time _ _ Hroot). auto.
  - pose proof (timed_child _ _ _ IHt Hc) as Htc.
    rewrite (timed_time _ _ Htc). split; [assumption|].
    rewrite length_app. simpl. lia.
Qed.

Lemma nodes_self (n : Node) : In n (nodes n).
Proof. destruct n. now left. Qed.

Lemma nodes_child (n c m : Node) :
  In c (children n) -> In m (nodes c) -> In m (nodes n).
Proof.
  destruct n as [d cs]. simpl. intros Hc Hm. right.
  apply in_flat_map. eauto.
Qed.

(** Induction on a tree, with the property available for every child. *)
Lemma Node_induction (P : Node -> Prop) :
  (forall d cs, Forall P cs -> P (mkNode d cs)) -> forall n, P n.
Proof.
  intros H. fix IH 1. intros [d cs]. apply H.
  induction cs as [|c cs IHcs]; constructor; [apply IH|exact IHcs].
Qed.

Lemma nodes_trans (r x m : Node) :
  In x (nodes r) -> In m (nodes x) -> In m (nodes r).
Proof.
  revert x m. induction r as [d cs IH] using Node_induction.
  intros x m Hx Hm. simpl in Hx. destruct Hx as [<-|Hx]; [assumption|].
  simpl. right. apply in_flat_map in Hx as (c & Hc & Hx).
  apply in_flat_map. exists c. split; [assumption|].
  rewrite Forall_forall in IH.
  apply (IH c (proj2 (list_elem_of_In _ _) Hc) x m Hx Hm).
Qed.

Lemma reach_nodes (root : Node) (ns : list Node) (n : Node) :
  reach root ns n -> In n (nodes root).
Proof.
  induction 1 as [|ns n c Hr IH Hc].
  - apply nodes_self.
  - apply (nodes_trans root n c IH).
    eapply nodes_child; [eassumption|apply nodes_self].
Qed.

(** ** The search loop *)

Lemma size_children (n : Node) : size n = S (list_sum (map size (children n))).
Proof. now destruct n. Qed.

Lemma iter_pop {A : Type} (k : nat) (l : list A) :
  Nat.iter k pop l = take (length l - k) l.
Proof.
  induction k as [|k IH]; simpl.
  - now rewrite Nat.sub_0_r, firstn_all.
  - rewrite IH. unfold pop. rewrite removelast_firstn_len.
    rewrite take_take, length_take. f_equal. lia.
Qed.

(** With a stack one longer than the current level, the stack is cut back
    to the node's time index before the node's elevator is pushed. *)
Lemma updatePath_take (level : nat) (stack : list string) (e : string)
    (t : nat) :
  length stack = S level ->
  t <= S level ->
  updatePath level stack e t = take t stack ++ [e].
Proof.
  intros Hlen Ht. unfold updatePath.
  destruct (Nat.ltb_spec level t) as [Hlt|Hge].
  - replace t with (length stack) by lia. now rewrite firstn_all.
  - rewrite iter_pop. do 2 f_equal. lia.
Qed.

Section Search.
Variables finalFloor finalTimeInterval : Num.

(** On any fuel that covers the nodes of the work list the loop returns,
    and a path is returned only at a node at the target. *)
Lemma searchLoop_sound (fuel level : nat) (stack : list string)
    (queue : list Node) :
  list_sum (map size queue) <= fuel ->
  exists r,
    searchLoop fuel finalFloor finalTimeInterval level stack queue = Ok r
    /\ (forall p, r = Some p ->
          exists t n, In t queue /\ In n (nodes t)
            /\ atTarget finalFloor finalTimeInterval n = true).
Proof.
  revert level stack queue.
  induction fuel as [|fuel IH]; intros level stack [|n rest] Hfuel.
  - exists None. split; [reflexivity|discriminate].
  - simpl in Hfuel. rewrite size_children in Hfuel. lia.
  - exists None. split; [reflexivity|discriminate].
  - simpl in Hfuel. rewrite size_children in Hfuel.
    cbn [searchLoop].
    destruct (eqNum (time (data n)) finalTimeInterval
              && strictEqNum (floor (data n)) finalFloor) eqn:Hat.
    + eexists. split; [reflexivity|]. intros p _.
      exists n, n. split; [now left|]. split; [apply nodes_self|exact Hat].
    + set (queue' := if ltNum _ _ then _ else _).
      destruct (IH (time (data n))
                  (updatePath level stack (elevator (data n)) (time (data n)))
                  queue') as (r & Hr & Hsound).
      { unfold queue'. destruct (ltNum _ _).
        - rewrite map_app, list_sum_app. lia.
        - lia. }
      exists r. split; [exact Hr|].
      intros p Hp. destruct (Hsound p Hp) as (t & m & Ht & Hm & Htarget).
      assert (Hcase : In t (children n) \/ In t rest).
      { unfold queue' in Ht. destruct (ltNum _ _); [|now right].
        now apply in_app_iff in Ht. }
      destruct Hcase as [Hc|Hrest].
      * exists n, m. split; [now left|]. split; [|exact Htarget].
        eapply nodes_child; eauto.
      * exists t, m. split; [now right|]. auto.
Qed.

End Search.

(** ** The path stack on a tree whose time indices are depths *)

Lemma descending_same (k : nat) (l : list Node) :
  (forall c, In c l -> time (data c) = k) -> descending l.
Proof.
  induction l as [|c l IH]; simpl; intros H; [exact I|].
  split.
  - intros c' Hc'. rewrite (H c), (H c'); auto.
  - apply IH. auto.
Qed.

Lemma descending_app (l1 l2 : list Node) :
  descending l1 -> descending l2 ->
  (forall a b, In a l1 -> In b l2 -> time (data b) <= time (data a)) ->
  descending (l1 ++ l2).
Proof.
  induction l1 as [|c l1 IH]; simpl; intros H1 H2 H12; [assumption|].
  destruct H1 as [Hc H1]. split.
  - intros c' Hc'. apply in_app_iff in Hc' as [Hc'|Hc']; auto.
  - apply IH; auto.
Qed.

Lemma elevators_snoc (ns : list Node) (c : Node) :
  elevators (ns ++ [c]) = elevators ns ++ [elevator (data c)].
Proof. unfold elevators. now rewrite map_app. Qed.

Section SearchPath.
Variables finalFloor finalTimeInterval : Num.
Variable root : Node.
Hypothesis root_timed : timed 0 root.

Lemma searchLoop_path (fuel level : nat) (stack : list string)
    (queue : list Node) :
  (exists ns n, reach root ns n /\ stack = elevators ns
                /\ time (data n) = level) ->
  (forall c, In c queue -> queued root stack c) ->
  descending queue ->
  list_sum (map size queue) <= fuel ->
  exists r,
    searchLoop fuel finalFloor finalTimeInterval level stack queue = Ok r
    /\ pathResult finalFloor finalTimeInterval root r.
Proof.
  revert level stack queue.
  induction fuel as [|fuel IH];
    intros level stack [|c rest] Hstack Hqueue Hdesc Hfuel.
  - exists None. split; [reflexivity|discriminate].
  - simpl in Hfuel. rewrite size_children in Hfuel. lia.
  - exists None. split; [reflexivity|discriminate].
  - simpl in Hfuel. rewrite size_children in Hfuel.
    destruct Hstack as (ns0 & n0 & Hr0 & -> & Hlevel).
    destruct (reach_timed _ _ _ root_timed Hr0) as [_ Hlen0].
    assert (Hlen : length (elevators ns0) = S level)
      by (unfold elevators; rewrite length_map; lia).
    destruct (Hqueue c (or_introl eq_refl)) as (nsp & np & Hrp & Hcp & Hel).
    destruct (reach_timed _ _ _ root_timed Hrp) as [Htp Hlenp].
    pose proof (timed_time _ _ (timed_child _ _ _ Htp Hcp)) as Htc.
    assert (Hle : time (data c) <= S level).
    { apply (f_equal length) in Hel. unfold elevators in Hel at 1.
      rewrite length_map, length_take, Hlen in Hel. lia. }
    pose proof (reach_child _ _ _ _ Hrp Hcp) as Hrc.
    cbn [searchLoop].
    rewrite (updatePath_take level _ _ _ Hlen Hle), <- Hel, <- elevators_snoc.
    fold (atTarget finalFloor finalTimeInterval c).
    destruct (atTarget finalFloor finalTimeInterval c) eqn:Hat.
    + eexists. split; [reflexivity|]. intros p [= <-]. eauto.
    + set (queue' := if ltNum _ _ then _ else _).
      destruct Hdesc as [Hhead Hdesc].
      assert (Hrest : forall c', In c' rest ->
                queued root (elevators (nsp ++ [c])) c').
      { intros c' Hc'.
        destruct (Hqueue c' (or_intror Hc')) as (ns' & n' & Hr' & Hin' & Hel').
        exists ns', n'. split; [assumption|]. split; [assumption|].
        rewrite Hel', elevators_snoc, Hel.
        pose proof (Hhead c' Hc').
        rewrite take_app_le by (rewrite length_take; lia).
        rewrite take_take. f_equal. lia. }
      assert (Hkids : forall c', In c' (children c) ->
                queued root (elevators (nsp ++ [c])) c'
                /\ time (data c') = S (time (data c))).
      { intros c' Hc'.
        destruct (reach_timed _ _ _ root_timed Hrc) as [Htcc Hlenc].
        pose proof (timed_time _ _ (timed_child _ _ _ Htcc Hc')) as Htc'.
        split; [|assumption].
        exists (nsp ++ [c]), c. split; [assumption|]. split; [assumption|].
        rewrite firstn_all2; [reflexivity|].
        unfold elevators. rewrite length_map. lia. }
      destruct (IH (time (data c)) (elevators (nsp ++ [c])) queue')
        as (r & Hr & Hres).
      * exists (nsp ++ [c]), c. auto.
      * unfold queue'. intros c' Hc'. destruct (ltNum _ _); [|auto].
        apply in_app_iff in Hc' as [Hc'|Hc']; [apply Hkids|]; auto.
      * unfold queue'. destruct (ltNum _ _); [|assumption].
        apply descending_app; [|assumption|].
        -- apply (descending_same (S (time (data c)))).
           intros c' Hc'. now apply Hkids.
        -- intros a b Ha Hb. apply Hkids in Ha as [_ ->].
           pose proof (Hhead b Hb). lia.
      * unfold queue'. destruct (ltNum _ _).
        -- rewrite map_app, list_sum_app. lia.
        -- lia.
      * exists r. split; assumption.
Qed.

(** The search returns, and a returned string is the joined elevator
    identifiers on the way from the root to a node at the target, less
    its first character. *)
Lemma findFinalDestinationPath_path :
  exists r,
    findFinalDestinationPath root finalFloor finalTimeInterval = Ok r
    /\ pathResult finalFloor finalTimeInterval root r.
Proof.
  unfold findFinalDestinationPath. rewrite size_children.
  cbn [searchLoop]. rewrite (timed_time _ _ root_timed).
  change (updatePath 0 [] (elevator (data root)) 0) with (elevators [root]).
  rewrite app_nil_r.
  assert (Hat0 : eqNum 0 finalTimeInterval
                 && strictEqNum (floor (data root)) finalFloor
                 = atTarget finalFloor finalTimeInterval root)
    by (unfold atTarget; now rewrite (timed_time _ _ root_timed)).
  rewrite Hat0.
  destruct (atTarget finalFloor finalTimeInterval root) eqn:Hat.
  - eexists. split; [reflexivity|]. intros p [= <-].
    exists [root], root. split; [constructor|auto].
  - set (queue' := if ltNum _ _ then _ else _).
    assert (Hkids : forall c, In c (children root) ->
              queued root (elevators [root]) c /\ time (data c) = 1).
    { intros c Hc.
      pose proof (timed_time _ _ (timed_child _ _ _ root_timed Hc)) as Htc.
      split; [|assumption].
      exists [root], root. split; [constructor|]. split; [assumption|].
      now rewrite Htc. }
    destruct (searchLoop_path (list_sum (map size (children root))) 0
                (elevators [root]) queue') as (r & Hr & Hres).
    + exists [root], root. split; [constructor|].
      split; [reflexivity|]. apply (timed_time _ _ root_timed).
    + unfold queue'. intros c Hc.
      destruct (ltNum _ _); [apply Hkids; auto|destruct Hc].
    + unfold queue'. destruct (ltNum _ _); [|exact I].
      apply (descending_same 1). intros c Hc. now apply Hkids.
    + unfold queue'. destruct (ltNum _ _); simpl; lia.
    + exists r. split; assumption.
Qed.

End SearchPath.

(** ** The nodes of the built tree *)

Lemma nodes_cons (n : Node) : nodes n = n :: descendants n.
Proof. now destruct n. Qed.

Section PathTreeNodes.
Variable s : Schedule.

Lemma descendants_pathTree_unfold (d : NodeData) :
  descendants (pathTree s d)
  = flat_map (fun c => nodes (pathTree s c)) (childData s d).
Proof.
  unfold descendants. rewrite children_pathTree.
  induction (childData s d) as [|c l IH]; simpl; [reflexivity|].
  now rewrite IH.
Qed.

(** Every node below the root was created as a child of some node, and
    the tree below it is again the tree of all paths from it. *)
Lemma descendants_pathTree (d : NodeData) (n : Node) :
  In n (descendants (pathTree s d)) ->
  n = pathTree s (data n)
  /\ exists dp, In (data n) (childData s dp).
Proof.
  remember (S (horizon s) - time d) as k eqn:Hk.
  assert (Hle : S (horizon s) - time d <= k) by lia. clear Hk.
  revert d Hle. induction k as [|k IH]; intros d Hle.
  - rewrite descendants_pathTree_unfold, childData_beyond_horizon by lia.
    intros [].
  - rewrite descendants_pathTree_unfold. intros Hin.
    apply in_flat_map in Hin as (c & Hc & Hin).
    rewrite nodes_cons in Hin. destruct Hin as [<-|Hin].
    + rewrite data_pathTree. eauto.
    + apply (IH c); [|assumption].
      apply childData_In in Hc. lia.
Qed.

Lemma nodes_pathTree (d : NodeData) (n : Node) :
  In n (nodes (pathTree s d)) -> n = pathTree s (data n).
Proof.
  rewrite nodes_cons. intros [<-|Hin].
  - now rewrite data_pathTree.
  - now apply descendants_pathTree in Hin.
Qed.

Lemma nodes_pathTree_key (d : NodeData) (n : Node) :
  In (elevator d) (keys s) ->
  In n (nodes (pathTree s d)) -> In (elevator (data n)) (keys s).
Proof.
  intros Hd. rewrite nodes_cons. intros [<-|Hin].
  - now rewrite data_pathTree.
  - apply descendants_pathTree in Hin as (_ & dp & Hdp).
    apply childData_In in Hdp. tauto.
Qed.

Lemma nodes_pathTree_time (d : NodeData) (n : Node) :
  time d = 0 ->
  In n (nodes (pathTree s d)) -> time (data n) <= horizon s.
Proof.
  intros Hd. rewrite nodes_cons. intros [<-|Hin].
  - rewrite data_pathTree. lia.
  - apply descendants_pathTree in Hin as (_ & dp & Hdp).
    apply childData_In in Hdp. lia.
Qed.

End PathTreeNodes.

(** What the builder returns, in one statement. *)
Lemma buildElevatorPathTree_Ok (s : Schedule) (start : string) (root : Node) :
  buildElevatorPathTree s start = Ok root ->
  In start (keys s)
  /\ root = pathTree s (mkData start (floorOf s start 0) 0).
Proof.
  intros Hb. destruct (get s start) as [row|] eqn:Hrow.
  - rewrite (buildElevatorPathTree_pathTree s start row Hrow) in Hb.
    injection Hb as <-. split; [eapply get_Some_key; eauto|].
    unfold floorOf. now rewrite Hrow.
  - rewrite (buildElevatorPathTree_TypeError s start Hrow) in Hb. discriminate.
Qed.

Lemma buildElevatorPathTree_total (s : Schedule) (start : string) :
  In start (keys s) ->
  buildElevatorPathTree s start
  = Ok (pathTree s (mkData start (floorOf s start 0) 0)).
Proof.
  intros Hk. destruct (get_is_Some _ _ Hk) as [row Hrow].
  rewrite (buildElevatorPathTree_pathTree s start row Hrow).
  unfold floorOf. now rewrite Hrow.
Qed.

(** ** Paths of the tree on the schedule *)

Lemma ride_snoc (s : Schedule) (T : nat) (fl : option Z) (p : list string)
    (e : string) :
  ride s T fl (p ++ [e]) = floorOf s e (T + length p).
Proof.
  revert T fl. induction p as [|x p IH]; intros T fl; simpl.
  - f_equal. lia.
  - rewrite IH. f_equal. lia.
Qed.

Lemma last_cons_default {A : Type} (x d : A) (l : list A) :
  List.last (x :: l) d = List.last l x.
Proof.
  revert x d. induction l as [|y l IH]; intros x d; [reflexivity|].
  change (List.last (x :: y :: l) d) with (List.last (y :: l) d).
  now rewrite !IH.
Qed.

Lemma transfersOk_snoc (s : Schedule) (prev : string) (T : nat)
    (p : list string) (e : string) :
  transfersOk s prev T (p ++ [e])
  = transfersOk s prev T p && stepOk s (List.last p prev) e (T + length p).
Proof.
  revert prev T. induction p as [|x p IH]; intros prev T.
  - simpl. rewrite Nat.add_0_r. now rewrite andb_true_r.
  - cbn [app transfersOk]. rewrite IH, andb_assoc, last_cons_default.
    do 2 f_equal. simpl. lia.
Qed.

Lemma strictEq_refl (a : option Z) : strictEq a a = true.
Proof. destruct a; simpl; [apply Z.eqb_refl|reflexivity]. Qed.

Lemma last_snoc_default {A : Type} (l : list A) (x d : A) :
  List.last (l ++ [x]) d = x.
Proof. induction l as [|y l IH]; [reflexivity|]. simpl. rewrite IH. now destruct l. Qed.

Section ReachPathTree.
Variable s : Schedule.
Variable start : string.

(** The elevators on the way from the root to a node form a path that the
    schedule allows, and simulating it ends on the node's floor at the
    node's time. *)
Lemma reach_pathTree (ns : list Node) (n : Node) :
  reach (pathTree s (rootData s start)) ns n ->
  exists es,
    elevators ns = start :: es
    /\ length es = time (data n)
    /\ List.last es start = elevator (data n)
    /\ Forall (fun e => In e (keys s)) es
    /\ transfersOk s start 0 es = true
    /\ simulate s start es = floor (data n)
    /\ n = pathTree s (data n).
Proof.
  induction 1 as [|ns n c Hr (es & Hel & Hlen & Hlast & Hkeys & Hok & Hsim & Hn) Hc].
  - exists []. rewrite data_pathTree. simpl. repeat split; auto.
  - rewrite Hn, children_pathTree in Hc.
    apply in_map_iff in Hc as (dc & <- & Hdc).
    apply childData_In in Hdc as (Ht & Hk & Htr & Hfc & Hfp & _).
    exists (es ++ [elevator dc]). rewrite data_pathTree.
    rewrite elevators_snoc, Hel, data_pathTree.
    split; [reflexivity|].
    split; [rewrite length_app; simpl; lia|].
    split; [apply last_snoc_default|].
    split; [apply Forall_app; split; [assumption|now constructor]|].
    split.
    + rewrite transfersOk_snoc, Hok, Hlast, Hlen. simpl.
      unfold stepOk. rewrite <- Hfc, <- Hfp, Htr, strictEq_refl.
      now rewrite orb_true_r.
    + split; [|reflexivity].
      unfold simulate. rewrite ride_snoc, Hlen. simpl. now rewrite Hfc.
Qed.

End ReachPathTree.

(** ** Strings *)

Lemma append_empty_r (a : string) : String.append a EmptyString = a.
Proof.
  induction a as [|c a IH]; [reflexivity|].
  change (String c (String.append a EmptyString) = String c a). now rewrite IH.
Qed.

Lemma join_cons (x : string) (xs : list string) :
  join (x :: xs) = String.append x (join xs).
Proof.
  unfold join. destruct xs as [|y ys].
  - cbn [String.concat]. symmetry. apply append_empty_r.
  - reflexivity.
Qed.

Lemma length_append (a b : string) :
  String.length (String.append a b) = String.length a + String.length b.
Proof.
  induction a as [|c a IH]; [reflexivity|].
  change (S (String.length (String.append a b))
          = S (String.length a) + String.length b).
  now rewrite IH.
Qed.

Lemma length_join_single (es : list string) :
  Forall (fun e => String.length e = 1) es ->
  String.length (join es) = length es.
Proof.
  induction 1 as [|e es He _ IH]; [reflexivity|].
  rewrite join_cons, length_append, He, IH. reflexivity.
Qed.

Lemma substring1_single (a b : string) :
  String.length a = 1 -> substring1 (String.append a b) = b.
Proof.
  destruct a as [|c [|c' a]]; try discriminate. reflexivity.
Qed.

Lemma atTarget_true (finalFloor finalTimeInterval : Num) (n : Node) :
  atTarget finalFloor finalTimeInterval n = true ->
  finalTimeInterval = Int (Z.of_nat (time (data n)))
  /\ exists z, floor (data n) = Some z /\ finalFloor = Int z.
Proof.
  unfold atTarget. intros H. apply andb_true_iff in H as [Ht Hf].
  split.
  - destruct finalTimeInterval as [|z]; simpl in Ht; [discriminate|].
    apply Z.eqb_eq in Ht. now subst.
  - destruct (floor (data n)) as [x|], finalFloor as [|z]; simpl in Hf;
      try discriminate.
    apply Z.eqb_eq in Hf. subst. eauto.
Qed.

(** ** The query always returns *)



(** * Properties *)

(** Finds a concrete node in a concrete list of nodes. *)
Ltac find_node :=
  vm_compute; repeat (first [left; reflexivity | right]).

(** ** Floors and time indices of the created nodes *)

(** C1, as stated, fails: in the tree built for the first test case from
    elevator A, the node for elevator D at time 5 stands on floor 5, while
    the schedule of D has no entry at index 5; and its time index, 5, is
    beyond horizon - 1 = 4. *)
Lemma node_floor_not_entry_at_own_time :
  exists root n,
    buildElevatorPathTree testCase1 "A" = Ok root
    /\ In n (descendants root)
    /\ floor (data n) <> floorOf testCase1 (elevator (data n)) (time (data n))
    /\ ~ time (data n) <= horizon testCase1 - 1.
Proof.
  exists (pathTree testCase1 (mkData "A" (Some 1%Z) 0)).
  exists (mkNode (mkData "D" (Some 5%Z) 5) []).
  split; [vm_compute; reflexivity|].
  split; [find_node|].
  split; [vm_compute; discriminate|].
  vm_compute. lia.
Qed.

(** C1, amended: every non-root node created by the builder stands on the
    floor that the schedule of its elevator has one index before the node's
    time index, floor = schedule[elevator][time - 1]; that floor is defined
    and not 0; consequently the time index of every node is at least 1 and
    at most the length of that elevator's floor array, hence at most the
    horizon. *)
Theorem node_floor_entry_before_own_time (s : Schedule) (start : string)
    (root n : Node) :
  buildElevatorPathTree s start = Ok root ->
  In n (descendants root) ->
  exists row,
    get s (elevator (data n)) = Some row
    /\ floor (data n) = row !! (time (data n) - 1)
    /\ truthy (floor (data n)) = true
    /\ 1 <= time (data n) <= length row
    /\ time (data n) <= horizon s.
Proof.
  intros Hb Hn. apply buildElevatorPathTree_Ok in Hb as [_ ->].
  apply descendants_pathTree in Hn as (_ & dp & Hdp).
  apply childData_In in Hdp as (Ht & _ & Htr & Hf & _ & _).
  unfold floorOf in Hf.
  destruct (get s (elevator (data n))) as [row|] eqn:Hrow; simpl in Hf.
  - exists row. replace (time (data n) - 1) with (time dp) by lia.
    apply truthy_Some in Htr as Hz. destruct Hz as (z & Hz & _).
    rewrite Hf in Hz. apply lookup_lt_Some in Hz.
    pose proof (horizon_get _ _ _ Hrow).
    repeat split; auto; lia.
  - rewrite Hf in Htr. discriminate.
Qed.

Lemma node_floor_entry_before_own_time_witness :
  exists row,
    get testCase1 "D" = Some row
    /\ Some 5%Z = row !! (5 - 1)
    /\ truthy (Some 5%Z) = true
    /\ 1 <= 5 <= length row
    /\ 5 <= horizon testCase1.
Proof.
  apply (node_floor_entry_before_own_time testCase1 "A"
           (pathTree testCase1 (mkData "A" (Some 1%Z) 0))
           (mkNode (mkData "D" (Some 5%Z) 5) [])).
  - vm_compute. reflexivity.
  - find_node.
Defined.

(** ** The returned path follows the schedule *)

(** C2, as stated, fails for a starting elevator whose identifier has more
    than one character: on the schedule {AB: [1, 1]}, from AB to floor 1 at
    time 1, the query returns "BAB", which is not one elevator identifier
    of the schedule.  Besides, a path is simulated with the time step t + 1
    reading index t of the schedule: on the first test case the returned
    path ends on elevator D at time 5, on floor 5, and the schedule of D
    has floor 5 at index 4 and nothing at index 5. *)
Lemma returned_string_not_a_path_as_stated :
  (findElevatorPath [("AB", [1; 1]%Z)] "AB" (Int 1) (Int 1) = Ok "BAB"
   /\ "BAB" <> noSolution
   /\ ~ exists es,
          "BAB" = join es
          /\ Forall (fun e => In e (keys [("AB", [1; 1]%Z)])) es
          /\ Int 1 = Int (Z.of_nat (length es)))
  /\ (findElevatorPath testCase1 "A" (Int 5) (Int 5) = Ok "AABDD"
      /\ floorOf testCase1 "D" 4 = Some 5%Z
      /\ floorOf testCase1 "D" 5 = None).
Proof.
  split.
  - split; [vm_compute; reflexivity|].
    split; [discriminate|].
    intros (es & Hjoin & Hkeys & Hlen).
    injection Hlen as Hlen.
    destruct es as [|e [|e' es]]; simpl in Hlen; try lia.
    apply Forall_cons in Hkeys as [[<-|[]] _]. discriminate.
  - repeat split; vm_compute; reflexivity.
Qed.

(** C2, amended: for every schedule, target floor and target time, and
    every starting elevator whose identifier is one character long, if the
    query returns a path rather than the no-solution text, then the
    returned string is the concatenation of exactly targetTime elevator
    identifiers of the schedule, one per time step 1..targetTime;
    simulating that path on the schedule from the starting elevator ends on
    targetFloor; and every step, the first one from the starting elevator
    included, is a stay or a transfer between two elevators that the
    schedule puts on the same floor at that step.  The step from time t to
    t + 1 reads index t of the schedule, as the builder does.  When every
    identifier of the schedule is one character long, the returned string
    has exactly targetTime characters. *)
Theorem returned_path_follows_schedule (s : Schedule) (start : string)
    (finalFloor finalTimeInterval : Num) (p : string) :
  String.length start = 1 ->
  findElevatorPath s start finalFloor finalTimeInterval = Ok p ->
  p <> noSolution ->
  exists es,
    p = join es
    /\ Forall (fun e => In e (keys s)) es
    /\ finalTimeInterval = Int (Z.of_nat (length es))
    /\ (exists z, finalFloor = Int z /\ simulate s start es = Some z)
    /\ transfersOk s start 0 es = true
    /\ (Forall (fun e => String.length e = 1) (keys s) ->
        String.length p = length es).
Proof.
  intros Hstart Hq Hp. unfold findElevatorPath in Hq.
  destruct (buildElevatorPathTree s start) as [root| |] eqn:Hb;
    try discriminate.
  apply buildElevatorPathTree_Ok in Hb as [_ ->].
  set (d0 := mkData start (floorOf s start 0) 0) in *.
  destruct (findFinalDestinationPath_path finalFloor finalTimeInterval
              (pathTree s d0) (timed_pathTree s d0)) as (r & Hr & Hres).
  rewrite Hr in Hq. injection Hq as <-.
  destruct r as [q|]; [|now elim Hp].
  destruct (Hres q eq_refl) as (ns & n & Hreach & Hat & Hqeq).
  apply reach_pathTree in Hreach
    as (es & Hel & Hlen & _ & Hkeys & Hok & Hsim & _).
  apply atTarget_true in Hat as (Hft & z & Hfz & Hff).
  rewrite Hel, join_cons, (substring1_single _ _ Hstart) in Hqeq.
  assert (Hpq : orNoSolution (Some q) = q).
  { destruct q; [now elim Hp|reflexivity]. }
  rewrite Hpq. exists es.
  split; [assumption|]. split; [assumption|].
  split; [now rewrite Hlen|].
  split; [exists z; split; [assumption|congruence]|].
  split; [assumption|].
  intros Hsingle. rewrite Hqeq. apply length_join_single.
  rewrite Forall_forall in Hkeys, Hsingle |- *.
  intros e He. apply Hsingle, list_elem_of_In, Hkeys, He.
Qed.

Lemma returned_path_follows_schedule_witness :
  exists es,
    "AABDD" = join es
    /\ Forall (fun e => In e (keys testCase1)) es
    /\ Int 5 = Int (Z.of_nat (length es))
    /\ (exists z, Int 5 = Int z /\ simulate testCase1 "A" es = Some z)
    /\ transfersOk testCase1 "A" 0 es = true
    /\ (Forall (fun e => String.length e = 1) (keys testCase1) ->
        String.length "AABDD" = length es).
Proof.
  apply (returned_path_follows_schedule testCase1 "A" (Int 5) (Int 5)).
  - reflexivity.
  - vm_compute. reflexivity.
  - discriminate.
Defined.

(** ** Reporting that there is no solution *)

(** The search returns [null] when no node of the tree is at the target. *)
Lemma findFinalDestinationPath_None (root : Node)
    (finalFloor finalTimeInterval : Num) :
  (forall n, In n (nodes root) ->
     atTarget finalFloor finalTimeInterval n = false) ->
  findFinalDestinationPath root finalFloor finalTimeInterval = Ok None.
Proof.
  intros Hnone. unfold findFinalDestinationPath.
  destruct (searchLoop_sound finalFloor finalTimeInterval (size root) 0 []
              [root]) as (r & Hr & Hsound).
  { simpl. lia. }
  rewrite Hr. destruct r as [p|]; [|reflexivity].
  destruct (Hsound p eq_refl) as (t & n & [<-|[]] & Hn & Hat).
  rewrite (Hnone n Hn) in Hat. discriminate.
Qed.

(** C3, as stated, fails.  On the schedule {A: [1]}, from A, the
    zero-transfer path to floor 1 at time 0 is found by the search, as the
    empty string, and the query reports it with the same text as the
    unreachable floor 2.  And on a schedule whose only elevator is named
    "XThere is no solution" the path found to floor 1 at time 0 is itself
    the no-solution text. *)
Lemma no_solution_text_collides_with_paths :
  (exists root,
     buildElevatorPathTree [("A", [1%Z])] "A" = Ok root
     /\ findFinalDestinationPath root (Int 1) (Int 0) = Ok (Some "")
     /\ findElevatorPath [("A", [1%Z])] "A" (Int 1) (Int 0) = Ok noSolution
     /\ findFinalDestinationPath root (Int 2) (Int 0) = Ok None
     /\ findElevatorPath [("A", [1%Z])] "A" (Int 2) (Int 0) = Ok noSolution)
  /\ (exists root,
        buildElevatorPathTree [("XThere is no solution", [1%Z])]
          "XThere is no solution" = Ok root
        /\ findFinalDestinationPath root (Int 1) (Int 0)
           = Ok (Some noSolution)).
Proof.
  split.
  - exists (pathTree [("A", [1%Z])] (mkData "A" (Some 1%Z) 0)).
    repeat split; vm_compute; reflexivity.
  - exists (pathTree [("XThere is no solution", [1%Z])]
              (mkData "XThere is no solution" (Some 1%Z) 0)).
    split; vm_compute; reflexivity.
Qed.

(** C3, amended: the search reports that there is no solution as [null],
    a result of its own that no returned path string can equal, the empty
    string of a zero-transfer path included; the query then reports it as
    the text "There is no solution", and returns a path that the search
    found unchanged when that path is not the empty string.  So at the
    query a found, non-empty path is told apart from the no-solution
    outcome when it differs from that text. *)
Theorem no_solution_reporting (s : Schedule) (start : string)
    (finalFloor finalTimeInterval : Num) :
  In start (keys s) ->
  exists root r,
    buildElevatorPathTree s start = Ok root
    /\ findFinalDestinationPath root finalFloor finalTimeInterval = Ok r
    /\ match r with
       | None =>
           findElevatorPath s start finalFloor finalTimeInterval
           = Ok noSolution
       | Some p =>
           p <> EmptyString ->
           findElevatorPath s start finalFloor finalTimeInterval = Ok p
           /\ (p <> noSolution ->
               findElevatorPath s start finalFloor finalTimeInterval
               <> Ok noSolution)
       end.
Proof.
  intros Hstart.
  pose proof (buildElevatorPathTree_total s start Hstart) as Hb.
  set (d0 := mkData start (floorOf s start 0) 0) in *.
  destruct (findFinalDestinationPath_path finalFloor finalTimeInterval
              (pathTree s d0) (timed_pathTree s d0)) as (r & Hr & _).
  exists (pathTree s d0), r. split; [assumption|]. split; [assumption|].
  unfold findElevatorPath. rewrite Hb, Hr.
  destruct r as [[|c p]|]; [tauto| |reflexivity].
  intros _. split; [reflexivity|]. simpl. congruence.
Qed.

Lemma no_solution_reporting_witness :
  exists root r,
    buildElevatorPathTree testCase1 "A" = Ok root
    /\ findFinalDestinationPath root (Int 5) (Int 5) = Ok r
    /\ match r with
       | None => findElevatorPath testCase1 "A" (Int 5) (Int 5) = Ok noSolution
       | Some p =>
           p <> EmptyString ->
           findElevatorPath testCase1 "A" (Int 5) (Int 5) = Ok p
           /\ (p <> noSolution ->
               findElevatorPath testCase1 "A" (Int 5) (Int 5)
               <> Ok noSolution)
       end.
Proof.
  apply (no_solution_reporting testCase1 "A" (Int 5) (Int 5)).
  simpl. left. reflexivity.
Defined.

(** ** The test cases *)

(** C4: on the first test case, from elevator A to floor 5 at time 5, the
    query returns the path A, A, B, D, D. *)
Theorem testCase1_path :
  findElevatorPath testCase1 "A" (Int 5) (Int 5) = Ok "AABDD".
Proof. vm_compute. reflexivity. Qed.

(** The second test case of the source, for comparison with the third. *)
Example testCase2_path :
  findElevatorPath testCase2 "B" (Int 2) (Int 6) = Ok "DEECAA".
Proof. vm_compute. reflexivity. Qed.

(** C5: on the third test case, from elevator B to floor 2 at time 6, the
    search finds no path and the query returns the no-solution text. *)
Theorem testCase3_no_solution :
  findElevatorPath testCase3 "B" (Int 2) (Int 6) = Ok noSolution
  /\ exists root,
       buildElevatorPathTree testCase3 "B" = Ok root
       /\ findFinalDestinationPath root (Int 2) (Int 6) = Ok None.
Proof.
  split; [vm_compute; reflexivity|].
  exists (pathTree testCase3 (mkData "B" (Some 2%Z) 0)).
  split; vm_compute; reflexivity.
Qed.

(** ** No spurious path *)

(** C7: if the tree holds no node whose time equals the target time and
    whose floor equals the target floor, the search runs through the whole
    traversal and reports that there is no solution; it returns no path.
    This holds for every tree, in particular for every built one. *)
Theorem search_reports_not_found (root : Node)
    (finalFloor finalTimeInterval : Num) :
  (forall n, In n (nodes root) ->
     ~ (finalTimeInterval = Int (Z.of_nat (time (data n)))
        /\ exists z, floor (data n) = Some z /\ finalFloor = Int z)) ->
  findFinalDestinationPath root finalFloor finalTimeInterval = Ok None.
Proof.
  intros Hnone. apply findFinalDestinationPath_None. intros n Hn.
  destruct (atTarget finalFloor finalTimeInterval n) eqn:Hat; [|reflexivity].
  exfalso. apply (Hnone n Hn). now apply atTarget_true.
Qed.

Lemma search_reports_not_found_witness :
  findFinalDestinationPath
    (mkNode (mkData "A" (Some 1%Z) 0) [mkNode (mkData "A" (Some 1%Z) 1) []])
    (Int 2) (Int 1) = Ok None.
Proof.
  apply search_reports_not_found.
  intros n Hn [_ (z & Hz & Hf)]. injection Hf as <-.
  simpl in Hn. destruct Hn as [<-|[<-|[]]]; simpl in Hz; discriminate.
Defined.

(** C8: when the target time is beyond the horizon of the schedule, the
    query from an elevator of the schedule returns the ordinary no-solution
    text, the search having found no node at that time; no error of another
    kind is raised. *)
Theorem target_time_beyond_horizon (s : Schedule) (start : string)
    (finalFloor : Num) (targetTime : Z) :
  In start (keys s) ->
  (Z.of_nat (horizon s) < targetTime)%Z ->
  findElevatorPath s start finalFloor (Int targetTime) = Ok noSolution
  /\ exists root,
       buildElevatorPathTree s start = Ok root
       /\ findFinalDestinationPath root finalFloor (Int targetTime) = Ok None.
Proof.
  intros Hstart Hlate.
  pose proof (buildElevatorPathTree_total s start Hstart) as Hb.
  set (d0 := mkData start (floorOf s start 0) 0) in *.
  assert (Hnone : findFinalDestinationPath (pathTree s d0) finalFloor
                    (Int targetTime) = Ok None).
  { apply findFinalDestinationPath_None. intros n Hn.
    pose proof (nodes_pathTree_time s d0 n eq_refl Hn) as Ht.
    unfold atTarget. simpl.
    destruct (Z.eqb_spec (Z.of_nat (time (data n))) targetTime); [lia|].
    reflexivity. }
  split.
  - unfold findElevatorPath. now rewrite Hb, Hnone.
  - exists (pathTree s d0). auto.
Qed.

Lemma target_time_beyond_horizon_witness :
  findElevatorPath testCase1 "A" (Int 5) (Int 6) = Ok noSolution
  /\ exists root,
       buildElevatorPathTree testCase1 "A" = Ok root
       /\ findFinalDestinationPath root (Int 5) (Int 6) = Ok None.
Proof.
  apply (target_time_beyond_horizon testCase1 "A" (Int 5) 6).
  - simpl. left. reflexivity.
  - vm_compute. reflexivity.
Defined.

(** ** How often a node is created *)

Section Siblings.
Variable s : Schedule.

Lemma transfer_elevators_In (d : NodeData) (next : option Z)
    (names : list string) (e : string) :
  In e (map elevator (flat_map (transferChild s d next) names)) ->
  In e names /\ e <> elevator d.
Proof.
  intros Hin. apply in_map_iff in Hin as (c & <- & Hc).
  apply in_flat_map in Hc as (name & Hname & Hc).
  apply transferChild_In in Hc as (-> & _ & Hne & _). simpl. auto.
Qed.

Lemma transfer_elevators_NoDup (d : NodeData) (next : option Z)
    (names : list string) :
  NoDup names ->
  NoDup (map elevator (flat_map (transferChild s d next) names)).
Proof.
  induction 1 as [|name names Hname Hnd IH]; simpl; [constructor|].
  rewrite map_app. unfold transferChild at 1.
  destruct (_ && _); simpl; [|assumption].
  constructor; [|assumption].
  intros Hin. apply Hname. apply list_elem_of_In in Hin.
  apply transfer_elevators_In in Hin as [Hin _].
  now apply list_elem_of_In.
Qed.

(** One iteration creates at most one child per elevator. *)
Lemma childData_elevators_NoDup (d : NodeData) :
  NoDup (keys s) -> NoDup (map elevator (childData s d)).
Proof.
  intros Hnd. unfold childData.
  destruct (get s (elevator d)) as [row|]; [|constructor].
  rewrite map_app. apply NoDup_app.
  split; [destruct (truthy _); simpl; [apply NoDup_singleton|constructor]|].
  split; [|now apply transfer_elevators_NoDup].
  intros e He Hin.
  apply list_elem_of_In, transfer_elevators_In in Hin as [_ Hne].
  destruct (truthy _); simpl in He.
  - apply list_elem_of_singleton in He. contradiction.
  - now apply not_elem_of_nil in He.
Qed.

End Siblings.

(** C6, as stated, fails: in the tree built from elevator A on the schedule
    {A: [1, 1], B: [1, 1]}, the third and the seventh node of the traversal
    are two distinct nodes that both carry elevator A and time 2. *)
Lemma same_elevator_and_time_created_twice :
  exists root i j n m,
    buildElevatorPathTree [("A", [1; 1]%Z); ("B", [1; 1]%Z)] "A" = Ok root
    /\ i <> j
    /\ nodes root !! i = Some n
    /\ nodes root !! j = Some m
    /\ elevator (data n) = elevator (data m)
    /\ time (data n) = time (data m).
Proof.
  exists (pathTree [("A", [1; 1]%Z); ("B", [1; 1]%Z)]
            (mkData "A" (Some 1%Z) 0)).
  exists 2, 6.
  exists (mkNode (mkData "A" (Some 1%Z) 2) []).
  exists (mkNode (mkData "A" (Some 1%Z) 2) []).
  split; [vm_compute; reflexivity|].
  split; [lia|].
  repeat split; vm_compute; reflexivity.
Qed.

(** C6, amended: during tree construction at most one child is created per
    elevator under any one node: for every schedule and starting elevator,
    no two distinct children of the same node of the built tree carry the
    same elevator identifier, and all of them carry the time index of their
    parent plus one.  Nodes under different parents may carry the same
    elevator identifier and time index. *)
Theorem one_child_per_elevator (s : Schedule) (start : string)
    (root n : Node) :
  NoDup (keys s) ->
  buildElevatorPathTree s start = Ok root ->
  In n (nodes root) ->
  NoDup (map (fun c => elevator (data c)) (children n))
  /\ Forall (fun c => time (data c) = time (data n) + 1) (children n).
Proof.
  intros Hnd Hb Hn. apply buildElevatorPathTree_Ok in Hb as [_ ->].
  apply nodes_pathTree in Hn. rewrite Hn, children_pathTree, data_pathTree.
  split.
  - rewrite map_map.
    rewrite (map_ext _ elevator) by (intros c; now rewrite data_pathTree).
    now apply childData_elevators_NoDup.
  - apply Forall_forall. intros c Hc.
    apply list_elem_of_In, in_map_iff in Hc as (dc & <- & Hdc).
    rewrite data_pathTree. now apply childData_In in Hdc.
Qed.

Lemma one_child_per_elevator_witness :
  NoDup (map (fun c => elevator (data c))
           [mkNode (mkData "A" (Some 1%Z) 2) [];
            mkNode (mkData "B" (Some 1%Z) 2) []])
  /\ Forall (fun c => time (data c) = 1 + 1)
       [mkNode (mkData "A" (Some 1%Z) 2) [];
        mkNode (mkData "B" (Some 1%Z) 2) []].
Proof.
  apply (one_child_per_elevator [("A", [1; 1]%Z); ("B", [1; 1]%Z)] "A"
           (pathTree [("A", [1; 1]%Z); ("B", [1; 1]%Z)]
              (mkData "A" (Some 1%Z) 0))
           (mkNode (mkData "A" (Some 1%Z) 1)
              [mkNode (mkData "A" (Some 1%Z) 2) [];
               mkNode (mkData "B" (Some 1%Z) 2) []])).
  - apply (bool_decide_unpack _). vm_compute. exact I.
  - vm_compute. reflexivity.
  - find_node.
Defined.

(** ** Floor 0 *)

Lemma childData_falsy (s : Schedule) (d : NodeData) :
  truthy (floorOf s (elevator d) (time d)) = false -> childData s d = [].
Proof.
  intros Hf. destruct (childData s d) as [|c l] eqn:E; [reflexivity|].
  assert (Hin : In c (childData s d)) by (rewrite E; now left).
  apply childData_In in Hin as (_ & _ & Ht & _ & Hfp & _).
  rewrite Hfp, Hf in Ht. discriminate.
Qed.

Lemma childData_truthy (s : Schedule) (d : NodeData) :
  truthy (floorOf s (elevator d) (time d)) = true ->
  exists l,
    childData s d
    = mkData (elevator d) (floorOf s (elevator d) (time d)) (time d + 1) :: l.
Proof.
  unfold childData, floorOf.
  destruct (get s (elevator d)) as [row|]; simpl; [|discriminate].
  intros ->. simpl. eauto.
Qed.

(** C9, as stated, fails at the root: on the schedule {A: [0]} the tree
    built from A has a node, its root, that stands on floor 0. *)
Lemma root_may_stand_on_floor_zero :
  exists root n,
    buildElevatorPathTree [("A", [0%Z])] "A" = Ok root
    /\ In n (nodes root)
    /\ floor (data n) = Some 0%Z.
Proof.
  exists (mkNode (mkData "A" (Some 0%Z) 0) []).
  exists (mkNode (mkData "A" (Some 0%Z) 0) []).
  split; [vm_compute; reflexivity|].
  split; [left|]; reflexivity.
Qed.

(** C9, amended: the builder treats a schedule entry 0 exactly like an
    undefined entry: a node whose elevator has 0, or nothing, at the
    expansion index (the node's time index) gets no continuation child and
    no transfer child, while every other node gets its continuation child;
    so no node other than the root stands on floor 0 (the floor of the root
    is copied from the schedule unguarded).  When all floors of the schedule
    are positive, the guard holds exactly when the entry is defined. *)
Theorem zero_floor_like_undefined (s : Schedule) (start : string)
    (root : Node) :
  buildElevatorPathTree s start = Ok root ->
  (forall n, In n (nodes root) ->
     floorOf s (elevator (data n)) (time (data n)) = Some 0%Z
     \/ floorOf s (elevator (data n)) (time (data n)) = None ->
     children n = [])
  /\ (forall n z, In n (nodes root) ->
        floorOf s (elevator (data n)) (time (data n)) = Some z ->
        z <> 0%Z ->
        exists c, In c (children n)
                  /\ data c = mkData (elevator (data n)) (Some z)
                                (time (data n) + 1))
  /\ (forall n, In n (descendants root) -> floor (data n) <> Some 0%Z)
  /\ ((forall name row z, In (name, row) s -> In z row -> (0 < z)%Z) ->
      forall name i,
        truthy (floorOf s name i) = true
        <-> exists z, floorOf s name i = Some z).
Proof.
  intros Hb. apply buildElevatorPathTree_Ok in Hb as [_ ->].
  repeat apply conj.
  - intros n Hn Hentry. apply nodes_pathTree in Hn.
    rewrite Hn, children_pathTree, childData_falsy; [reflexivity|].
    destruct Hentry as [-> | ->]; reflexivity.
  - intros n z Hn Hentry Hz. apply nodes_pathTree in Hn.
    destruct (childData_truthy s (data n)) as [l Hl].
    { rewrite Hentry. simpl. now apply negb_true_iff, Z.eqb_neq. }
    rewrite Hentry in Hl.
    exists (pathTree s (mkData (elevator (data n)) (Some z)
                          (time (data n) + 1))).
    split; [|apply data_pathTree].
    rewrite Hn, children_pathTree, data_pathTree, Hl. now left.
  - intros n Hn. apply descendants_pathTree in Hn as (_ & dp & Hdp).
    apply childData_In in Hdp as (_ & _ & Ht & _).
    intros Hz. rewrite Hz in Ht. discriminate.
  - intros Hpos name i. split.
    + intros Ht. apply truthy_Some in Ht as (z & Hz & _). eauto.
    + intros [z Hz]. rewrite Hz. simpl.
      apply negb_true_iff, Z.eqb_neq.
      unfold floorOf in Hz.
      destruct (get s name) as [row|] eqn:Hrow; simpl in Hz; [|discriminate].
      apply get_Some_In in Hrow.
      apply list_elem_of_lookup_2, list_elem_of_In in Hz.
      specialize (Hpos name row z Hrow Hz). lia.
Qed.

Lemma zero_floor_like_undefined_witness :
  children (mkNode (mkData "A" (Some 3%Z) 2) []) = []
  /\ floor (data (mkNode (mkData "A" (Some 3%Z) 2) [])) <> Some 0%Z
  /\ (truthy (floorOf [("A", [3; 3]%Z); ("B", [3; 3]%Z)] "B" 1) = true
      <-> exists z, floorOf [("A", [3; 3]%Z); ("B", [3; 3]%Z)] "B" 1 = Some z).
Proof.
  destruct (zero_floor_like_undefined [("A", [3; 3]%Z); ("B", [3; 3]%Z)] "A"
              (pathTree [("A", [3; 3]%Z); ("B", [3; 3]%Z)]
                 (mkData "A" (Some 3%Z) 0)))
    as (Hleaf & _ & Hnonzero & Hguard).
  - vm_compute. reflexivity.
  - split; [|split].
    + apply Hleaf; [find_node|]. right. vm_compute. reflexivity.
    + apply Hnonzero. find_node.
    + apply Hguard. intros name row z Hrow Hz. simpl in Hrow.
      destruct Hrow as [[= <- <-]|[[= <- <-]|[]]]; simpl in Hz;
        destruct Hz as [<-|[<-|[]]]; lia.
Defined.

(** ** The encoding of the returned path *)

(** C10: when the search succeeds on the built tree, it returns the
    concatenation of the elevator identifiers on the way from the root to
    the matching node, with its first character removed and nothing else.
    With [es] the elevators of the time steps 1..targetTime: when the
    starting elevator's identifier is one character long (in particular when
    every identifier is), the root's entry is stripped whole and the result
    is the concatenation of [es]; when it is longer, the result keeps the
    rest of the root's identifier in front of that concatenation, and
    differs from it. *)
Theorem search_result_encoding (s : Schedule) (start : string) (root : Node)
    (finalFloor finalTimeInterval : Num) (p : string) :
  buildElevatorPathTree s start = Ok root ->
  findFinalDestinationPath root finalFloor finalTimeInterval = Ok (Some p) ->
  exists ns n es,
    reach root ns n
    /\ atTarget finalFloor finalTimeInterval n = true
    /\ p = substring1 (join (elevators ns))
    /\ elevators ns = start :: es
    /\ finalTimeInterval = Int (Z.of_nat (length es))
    /\ (String.length start = 1 -> p = join es)
    /\ (forall c rest, start = String c rest ->
          p = String.append rest (join es))
    /\ (2 <= String.length start -> p <> join es).
Proof.
  intros Hb Hfound. apply buildElevatorPathTree_Ok in Hb as [_ ->].
  set (d0 := mkData start (floorOf s start 0) 0) in *.
  destruct (findFinalDestinationPath_path finalFloor finalTimeInterval
              (pathTree s d0) (timed_pathTree s d0)) as (r & Hr & Hres).
  rewrite Hr in Hfound. injection Hfound as ->.
  destruct (Hres p eq_refl) as (ns & n & Hreach & Hat & Hp).
  destruct (reach_pathTree s start ns n Hreach) as (es & Hel & Hlen & _).
  pose proof (atTarget_true _ _ _ Hat) as [Hft _].
  exists ns, n, es.
  assert (Hrest : forall c rest, start = String c rest ->
            p = String.append rest (join es)).
  { intros c rest ->. rewrite Hp, Hel, join_cons. reflexivity. }
  repeat apply conj; auto.
  - now rewrite Hlen.
  - intros H1. rewrite Hp, Hel, join_cons. now apply substring1_single.
  - intros H2 Heq. destruct start as [|c rest]; [simpl in H2; lia|].
    specialize (Hrest c rest eq_refl). rewrite Heq in Hrest.
    apply (f_equal String.length) in Hrest.
    rewrite length_append in Hrest. simpl in H2. lia.
Qed.

Lemma search_result_encoding_witness :
  exists ns n es,
    reach (pathTree [("AB", [1; 1]%Z)] (mkData "AB" (Some 1%Z) 0)) ns n
    /\ atTarget (Int 1) (Int 1) n = true
    /\ "BAB" = substring1 (join (elevators ns))
    /\ elevators ns = "AB" :: es
    /\ Int 1 = Int (Z.of_nat (length es))
    /\ (String.length "AB" = 1 -> "BAB" = join es)
    /\ (forall c rest, "AB" = String c rest ->
          "BAB" = String.append rest (join es))
    /\ (2 <= String.length "AB" -> "BAB" <> join es).
Proof.
  apply (search_result_encoding [("AB", [1; 1]%Z)] "AB").
  - vm_compute. reflexivity.
  - vm_compute. reflexivity.
Defined.

(** * Further properties *)

(** ** The search loop and the recursive search *)

Lemma dfsFind_unfold (finalFloor finalTimeInterval : Num)
    (prefix : list string) (n : Node) :
  dfsFind finalFloor finalTimeInterval prefix n
  = if atTarget finalFloor finalTimeInterval n
    then Some (prefix ++ [elevator (data n)])
    else firstSome
           (map (dfsFind finalFloor finalTimeInterval
                   (prefix ++ [elevator (data n)])) (children n)).
Proof. now destruct n. Qed.

Lemma firstSome_app {A : Type} (l1 l2 : list (option A)) :
  firstSome (l1 ++ l2)
  = match firstSome l1 with Some a => Some a | None => firstSome l2 end.
Proof.
  induction l1 as [|[a|] l1 IH]; simpl; auto.
Qed.

Lemma firstSome_map_None {A B : Type} (f : A -> option B) (l : list A) :
  (forall x, In x l -> f x = None) -> firstSome (map f l) = None.
Proof.
  induction l as [|x l IH]; simpl; intros H; [reflexivity|].
  rewrite (H x (or_introl eq_refl)). apply IH. auto.
Qed.

Lemma firstSome_map_Some {A B : Type} (f : A -> option B) (l : list A)
    (b : B) :
  firstSome (map f l) = Some b -> exists x, In x l /\ f x = Some b.
Proof.
  induction l as [|x l IH]; simpl; [discriminate|].
  destruct (f x) as [b'|] eqn:E.
  - intros [= ->]. eauto.
  - intros H. destruct (IH H) as (y & Hy & Hfy). eauto.
Qed.

Lemma dfsFind_None (finalFloor finalTimeInterval : Num) (n : Node) :
  (forall m, In m (nodes n) ->
     atTarget finalFloor finalTimeInterval m = false) ->
  forall prefix, dfsFind finalFloor finalTimeInterval prefix n = None.
Proof.
  induction n as [d cs IH] using Node_induction. intros Hnone prefix.
  rewrite dfsFind_unfold, (Hnone _ (nodes_self _)).
  apply firstSome_map_None. intros c Hc.
  rewrite Forall_forall in IH. apply IH; [now apply list_elem_of_In|].
  intros m Hm. apply Hnone. eapply nodes_child; eauto.
Qed.

Lemma timed_nodes_time (n : Node) :
  forall k m, timed k n -> In m (nodes n) -> k <= time (data m).
Proof.
  induction n as [d cs IH] using Node_induction. intros k m Ht Hm.
  simpl in Hm. destruct Hm as [<-|Hm].
  - rewrite (timed_time _ _ Ht). lia.
  - apply in_flat_map in Hm as (c & Hc & Hm).
    rewrite Forall_forall in IH.
    pose proof (timed_child _ _ c Ht Hc) as Htc.
    specialize (IH c (proj2 (list_elem_of_In _ _) Hc) (S k) m Htc Hm). lia.
Qed.

Lemma atTarget_later (finalFloor finalTimeInterval : Num) (k : nat)
    (m : Node) :
  ltNum k finalTimeInterval = false ->
  k < time (data m) ->
  atTarget finalFloor finalTimeInterval m = false.
Proof.
  intros Hlt Hk. unfold atTarget.
  destruct finalTimeInterval as [|z]; simpl in *; [reflexivity|].
  apply Z.ltb_ge in Hlt.
  destruct (Z.eqb_spec (Z.of_nat (time (data m))) z); [lia|reflexivity].
Qed.

Section SearchRefinement.
Variables finalFloor finalTimeInterval : Num.

(** The loop returns what the recursive search finds first in the trees of
    the work list, each one searched with the part of the path stack above
    it. *)
Lemma searchLoop_dfsFind (fuel level : nat) (stack : list string)
    (queue : list Node) :
  length stack = S level ->
  (forall c, In c queue ->
     timed (time (data c)) c /\ time (data c) <= S level) ->
  descending queue ->
  list_sum (map size queue) <= fuel ->
  searchLoop fuel finalFloor finalTimeInterval level stack queue
  = Ok (encode <$>
          firstSome
            (map (fun c => dfsFind finalFloor finalTimeInterval
                             (take (time (data c)) stack) c) queue)).
Proof.
  revert level stack queue.
  induction fuel as [|fuel IH];
    intros level stack [|c rest] Hlen Hqueue Hdesc Hfuel;
    try reflexivity.
  - simpl in Hfuel. rewrite size_children in Hfuel. lia.
  - simpl in Hfuel. rewrite size_children in Hfuel.
    destruct (Hqueue c (or_introl eq_refl)) as [Htc Hle].
    destruct Hdesc as [Hhead Hdesc].
    cbn [searchLoop map firstSome].
    rewrite (updatePath_take level _ _ _ Hlen Hle), dfsFind_unfold.
    fold (atTarget finalFloor finalTimeInterval c).
    destruct (atTarget finalFloor finalTimeInterval c) eqn:Hat;
      [reflexivity|].
    set (stack' := take (time (data c)) stack ++ [elevator (data c)]).
    assert (Hlen' : length stack' = S (time (data c))).
    { unfold stack'. rewrite length_app, length_take. simpl. lia. }
    assert (Hrest : map (fun c' => dfsFind finalFloor finalTimeInterval
                                     (take (time (data c')) stack') c') rest
                    = map (fun c' => dfsFind finalFloor finalTimeInterval
                                       (take (time (data c')) stack) c') rest).
    { apply map_ext_in. intros c' Hc'. f_equal. unfold stack'.
      pose proof (Hhead c' Hc').
      rewrite take_app_le by (rewrite length_take; lia).
      rewrite take_take. f_equal. lia. }
    assert (Hkids : forall c', In c' (children c) ->
              timed (S (time (data c))) c'
              /\ time (data c') = S (time (data c))).
    { intros c' Hc'. pose proof (timed_child _ _ _ Htc Hc') as Ht.
      split; [assumption|]. apply (timed_time _ _ Ht). }
    destruct (ltNum (time (data c)) finalTimeInterval) eqn:Hlt.
    + rewrite IH.
      * rewrite map_app, firstSome_app, Hrest. f_equal.
        replace (map (fun c' => dfsFind finalFloor finalTimeInterval
                                  (take (time (data c')) stack') c')
                   (children c))
          with (map (dfsFind finalFloor finalTimeInterval stack')
                  (children c)).
        { now destruct (firstSome (map (dfsFind _ _ stack') (children c))). }
        apply map_ext_in. intros c' Hc'. f_equal.
        destruct (Hkids c' Hc') as [_ ->].
        rewrite firstn_all2; [reflexivity|lia].
      * assumption.
      * intros c' Hc'. apply in_app_iff in Hc' as [Hc'|Hc'].
        -- destruct (Hkids c' Hc') as [Ht Heq]. rewrite Heq. split; [|lia].
           assumption.
        -- destruct (Hqueue c' (or_intror Hc')) as [Ht _].
           split; [assumption|]. pose proof (Hhead c' Hc'). lia.
      * apply descending_app; [|assumption|].
        -- apply (descending_same (S (time (data c)))).
           intros c' Hc'. now apply Hkids.
        -- intros a b Ha Hb. apply Hkids in Ha as [_ ->].
           pose proof (Hhead b Hb). lia.
      * rewrite map_app, list_sum_app. lia.
    + rewrite IH.
      * rewrite Hrest.
        rewrite (firstSome_map_None
                   (dfsFind finalFloor finalTimeInterval stack'));
          [reflexivity|].
        intros c' Hc'. apply dfsFind_None. intros m Hm.
        apply (atTarget_later _ _ (time (data c))); [assumption|].
        destruct (Hkids c' Hc') as [Ht _].
        pose proof (timed_nodes_time c' _ m Ht Hm). lia.
      * assumption.
      * intros c' Hc'. destruct (Hqueue c' (or_intror Hc')) as [Ht _].
        split; [assumption|]. pose proof (Hhead c' Hc'). lia.
      * assumption.
      * lia.
Qed.

(** On a tree whose time indices are depths, the search returns the path
    that the recursive search finds. *)
Lemma findFinalDestinationPath_dfsFind (root : Node) :
  timed 0 root ->
  findFinalDestinationPath root finalFloor finalTimeInterval
  = Ok (encode <$> dfsFind finalFloor finalTimeInterval [] root).
Proof.
  intros Hroot. unfold findFinalDestinationPath.
  rewrite size_children, dfsFind_unfold. cbn [searchLoop].
  rewrite (timed_time _ _ Hroot).
  change (updatePath 0 [] (elevator (data root)) 0)
    with ([] ++ [elevator (data root)]).
  assert (Hat0 : eqNum 0 finalTimeInterval
                 && strictEqNum (floor (data root)) finalFloor
                 = atTarget finalFloor finalTimeInterval root)
    by (unfold atTarget; now rewrite (timed_time _ _ Hroot)).
  rewrite Hat0.
  destruct (atTarget finalFloor finalTimeInterval root) eqn:Hat;
    [reflexivity|].
  set (stack := [] ++ [elevator (data root)]).
  assert (Hkids : forall c, In c (children root) ->
            timed 1 c /\ time (data c) = 1).
  { intros c Hc. pose proof (timed_child _ _ _ Hroot Hc) as Ht.
    split; [assumption|]. apply (timed_time _ _ Ht). }
  destruct (ltNum 0 finalTimeInterval) eqn:Hlt.
  - rewrite app_nil_r, searchLoop_dfsFind.
    + do 3 f_equal. apply map_ext_in. intros c Hc.
      now destruct (Hkids c Hc) as [_ ->].
    + reflexivity.
    + intros c Hc. destruct (Hkids c Hc) as [Ht ->]. split; [assumption|lia].
    + apply (descending_same 1). intros c Hc. now apply Hkids.
    + lia.
  - rewrite (firstSome_map_None
               (dfsFind finalFloor finalTimeInterval stack));
      [now destruct (list_sum (map size (children root)))|].
    intros c Hc. apply dfsFind_None. intros m Hm.
    apply (atTarget_later _ _ 0); [assumption|].
    destruct (Hkids c Hc) as [Ht _].
    pose proof (timed_nodes_time c _ m Ht Hm). lia.
Qed.

End SearchRefinement.

Lemma firstSome_map_defined {A B : Type} (f : A -> option B) (l : list A)
    (x : A) (b : B) :
  In x l -> f x = Some b -> exists b', firstSome (map f l) = Some b'.
Proof.
  induction l as [|y l IH]; simpl; [tauto|].
  intros [->|Hx] Hfx.
  - rewrite Hfx. eauto.
  - destruct (f y); eauto.
Qed.

Lemma dfsFind_complete (finalFloor finalTimeInterval : Num) (n : Node) :
  forall m prefix,
    In m (nodes n) ->
    atTarget finalFloor finalTimeInterval m = true ->
    exists st, dfsFind finalFloor finalTimeInterval prefix n = Some st.
Proof.
  induction n as [d cs IH] using Node_induction. intros m prefix Hm Hat.
  rewrite dfsFind_unfold.
  destruct (atTarget finalFloor finalTimeInterval (mkNode d cs)) eqn:Hd;
    [eauto|].
  simpl in Hm. destruct Hm as [<-|Hm]; [congruence|].
  apply in_flat_map in Hm as (c & Hc & Hm). simpl.
  rewrite Forall_forall in IH.
  destruct (IH c (proj2 (list_elem_of_In _ _) Hc) m
              (prefix ++ [elevator d]) Hm Hat) as [st Hst].
  eapply firstSome_map_defined; eauto.
Qed.

Lemma atTarget_intro (finalFloor finalTimeInterval : Num) (n : Node) (z : Z) :
  finalTimeInterval = Int (Z.of_nat (time (data n))) ->
  floor (data n) = Some z ->
  finalFloor = Int z ->
  atTarget finalFloor finalTimeInterval n = true.
Proof.
  intros -> Hz ->. unfold atTarget. rewrite Hz. simpl.
  now rewrite !Z.eqb_refl.
Qed.

(** X1: on the tree that the builder returns, the loop with its work list
    and its shared path stack returns exactly what a recursive pre-order
    search returns: the path to the first node at the target, the children
    of every node taken in the order of creation, less the first character
    of its concatenation; and [null] when that search finds nothing. *)
Theorem search_is_recursive_preorder_search (s : Schedule) (start : string)
    (root : Node) (finalFloor finalTimeInterval : Num) :
  buildElevatorPathTree s start = Ok root ->
  findFinalDestinationPath root finalFloor finalTimeInterval
  = Ok (encode <$> dfsFind finalFloor finalTimeInterval [] root).
Proof.
  intros Hb. apply buildElevatorPathTree_Ok in Hb as [_ ->].
  apply findFinalDestinationPath_dfsFind.
  apply (timed_pathTree s (mkData start (floorOf s start 0) 0)).
Qed.

Lemma search_is_recursive_preorder_search_witness :
  findFinalDestinationPath (pathTree testCase2 (rootData testCase2 "B"))
    (Int 2) (Int 6)
  = Ok (encode <$>
          dfsFind (Int 2) (Int 6) []
            (pathTree testCase2 (rootData testCase2 "B"))).
Proof.
  apply (search_is_recursive_preorder_search testCase2 "B").
  vm_compute. reflexivity.
Defined.

(** X2: on the built tree the search returns a path exactly when the tree
    has a node whose time index is the target time and whose floor is the
    target floor. *)
Theorem search_finds_path_iff_node_at_target (s : Schedule) (start : string)
    (root : Node) (finalFloor finalTimeInterval : Num) :
  buildElevatorPathTree s start = Ok root ->
  (exists p,
     findFinalDestinationPath root finalFloor finalTimeInterval
     = Ok (Some p))
  <-> (exists n z,
         In n (nodes root)
         /\ finalTimeInterval = Int (Z.of_nat (time (data n)))
         /\ floor (data n) = Some z
         /\ finalFloor = Int z).
Proof.
  intros Hb. apply buildElevatorPathTree_Ok in Hb as [_ ->].
  set (d0 := mkData start (floorOf s start 0) 0).
  rewrite (findFinalDestinationPath_dfsFind finalFloor finalTimeInterval
             (pathTree s d0) (timed_pathTree s d0)).
  split.
  - intros [p Hp].
    destruct (findFinalDestinationPath_path finalFloor finalTimeInterval
                (pathTree s d0) (timed_pathTree s d0)) as (r & Hr & Hres).
    rewrite (findFinalDestinationPath_dfsFind finalFloor finalTimeInterval
               (pathTree s d0) (timed_pathTree s d0)) in Hr.
    rewrite Hp in Hr. injection Hr as <-.
    destruct (Hres p eq_refl) as (ns & n & Hreach & Hat & _).
    apply atTarget_true in Hat as (Hft & z & Hz & Hff).
    exists n, z. split; [eapply reach_nodes; eauto|auto].
  - intros (n & z & Hn & Hft & Hz & Hff).
    destruct (dfsFind_complete finalFloor finalTimeInterval (pathTree s d0)
                n [] Hn (atTarget_intro _ _ n z Hft Hz Hff)) as [st Hst].
    rewrite Hst. simpl. eauto.
Qed.

Lemma search_finds_path_iff_node_at_target_witness :
  (exists p,
     findFinalDestinationPath (pathTree testCase1 (rootData testCase1 "A"))
       (Int 5) (Int 5) = Ok (Some p))
  <-> (exists n z,
         In n (nodes (pathTree testCase1 (rootData testCase1 "A")))
         /\ Int 5 = Int (Z.of_nat (time (data n)))
         /\ floor (data n) = Some z
         /\ Int 5 = Int z).
Proof.
  apply (search_finds_path_iff_node_at_target testCase1 "A").
  vm_compute. reflexivity.
Defined.

(** ** The search and the schedule *)

Section Rideable.
Variable s : Schedule.

Lemma floorOf_truthy_get (name : string) (i : nat) :
  truthy (floorOf s name i) = true ->
  exists row, get s name = Some row /\ floorOf s name i = row !! i.
Proof.
  unfold floorOf. destruct (get s name) as [row|]; simpl; [eauto|discriminate].
Qed.

(** An elevator that is on the defined, non-zero floor of the node's
    elevator at the node's time index gives a child of the node. *)
Lemma childData_intro (d : NodeData) (e : string) :
  truthy (floorOf s e (time d)) = true ->
  strictEq (floorOf s (elevator d) (time d)) (floorOf s e (time d)) = true ->
  In (mkData e (floorOf s e (time d)) (time d + 1)) (childData s d).
Proof.
  intros Ht Heq. apply strictEq_eq in Heq.
  assert (Htd : truthy (floorOf s (elevator d) (time d)) = true)
    by now rewrite Heq.
  destruct (floorOf_truthy_get _ _ Htd) as (row & Hrow & Hfd).
  unfold childData. rewrite Hrow. cbn zeta. rewrite <- Hfd, Htd.
  destruct (String.eqb_spec (elevator d) e) as [<-|Hne].
  - left. reflexivity.
  - right. apply in_flat_map. exists e. split.
    + apply truthy_Some in Ht as (z & Hz & _).
      now apply floorOf_lt in Hz.
    + unfold transferChild. rewrite Ht, Heq, strictEq_refl.
      destruct (String.eqb_spec (elevator d) e); [contradiction|].
      now left.
Qed.

(** A path that can be ridden from a node ends at a node of the tree. *)
Lemma rideable_node (es : list string) :
  forall d,
    rideable s (elevator d) (time d) es = true ->
    exists n,
      In n (nodes (pathTree s d))
      /\ time (data n) = time d + length es
      /\ floor (data n) = ride s (time d) (floor d) es.
Proof.
  induction es as [|e es IH]; intros d Hr.
  - exists (pathTree s d). rewrite data_pathTree. simpl.
    split; [apply nodes_self|]. split; [lia|reflexivity].
  - simpl in Hr. apply andb_true_iff in Hr as [Hr Hrest].
    apply andb_true_iff in Hr as [Ht Heq].
    pose proof (childData_intro d e Ht Heq) as Hc.
    set (c := mkData e (floorOf s e (time d)) (time d + 1)) in *.
    destruct (IH c) as (n & Hn & Htime & Hfloor).
    { simpl. now replace (time d + 1) with (S (time d)) by lia. }
    exists n. split; [|split].
    + apply (nodes_child (pathTree s d) (pathTree s c)); [|assumption].
      rewrite children_pathTree. now apply in_map.
    + rewrite Htime. simpl. lia.
    + rewrite Hfloor. simpl.
      now replace (time d + 1) with (S (time d)) by lia.
Qed.

Lemma rideable_snoc (cur : string) (T : nat) (p : list string) (e : string) :
  rideable s cur T (p ++ [e])
  = rideable s cur T p
    && (truthy (floorOf s e (T + length p))
        && strictEq (floorOf s (List.last p cur) (T + length p))
             (floorOf s e (T + length p))).
Proof.
  revert cur T. induction p as [|x p IH]; intros cur T.
  - simpl. rewrite Nat.add_0_r. now rewrite !andb_true_r.
  - cbn [app rideable]. rewrite IH, last_cons_default.
    replace (S T + length p) with (T + length (x :: p)) by (simpl; lia).
    now rewrite !andb_assoc.
Qed.

(** The elevators on the way from the root to a node can be ridden. *)
Lemma reach_rideable (start : string) (ns : list Node) (n : Node) :
  reach (pathTree s (rootData s start)) ns n ->
  exists es,
    elevators ns = start :: es
    /\ length es = time (data n)
    /\ List.last es start = elevator (data n)
    /\ rideable s start 0 es = true
    /\ n = pathTree s (data n).
Proof.
  induction 1 as [|ns n c Hr (es & Hel & Hlen & Hlast & Hok & Hn) Hc].
  - exists []. rewrite data_pathTree. simpl. auto.
  - rewrite Hn, children_pathTree in Hc.
    apply in_map_iff in Hc as (dc & <- & Hdc).
    apply childData_In in Hdc as (Ht & _ & Htr & Hfc & Hfp & _).
    exists (es ++ [elevator dc]).
    rewrite elevators_snoc, Hel, !data_pathTree.
    split; [reflexivity|].
    split; [rewrite length_app; simpl; lia|].
    split; [apply last_snoc_default|].
    split; [|reflexivity].
    rewrite rideable_snoc, Hok, Hlast, Hlen. simpl.
    now rewrite <- Hfc, <- Hfp, Htr, strictEq_refl.
Qed.

End Rideable.

(** On the tree of all paths the search succeeds exactly when the target
    can be reached by riding the schedule. *)
Lemma pathTree_search_reachable (s : Schedule) (start : string)
    (finalFloor finalTimeInterval : Num) :
  (exists p,
     findFinalDestinationPath (pathTree s (rootData s start)) finalFloor
       finalTimeInterval = Ok (Some p))
  <-> (exists es z,
         finalTimeInterval = Int (Z.of_nat (length es))
         /\ finalFloor = Int z
         /\ rideable s start 0 es = true
         /\ simulate s start es = Some z).
Proof.
  set (d0 := rootData s start).
  pose proof (timed_pathTree s d0) as Htimed.
  split.
  - intros [p Hp].
    destruct (findFinalDestinationPath_path finalFloor finalTimeInterval
                (pathTree s d0) Htimed) as (r & Hr & Hres).
    rewrite Hp in Hr. injection Hr as <-.
    destruct (Hres p eq_refl) as (ns & n & Hreach & Hat & _).
    apply atTarget_true in Hat as (Hft & z & Hz & Hff).
    destruct (reach_pathTree s start ns n Hreach)
      as (es & Hel & Hlen & _ & _ & _ & Hsim & _).
    destruct (reach_rideable s start ns n Hreach)
      as (es' & Hel' & _ & _ & Hride & _).
    assert (es' = es) by congruence. subst es'.
    exists es, z. rewrite Hlen. split; [assumption|]. split; [assumption|].
    split; [assumption|congruence].
  - intros (es & z & Hft & Hff & Hride & Hsim).
    destruct (rideable_node s es d0 Hride) as (n & Hn & Htime & Hfloor).
    simpl in Htime.
    destruct (dfsFind_complete finalFloor finalTimeInterval (pathTree s d0)
                n [] Hn) as [st Hst].
    { apply (atTarget_intro _ _ n z); [now rewrite Htime| |assumption].
      rewrite Hfloor. exact Hsim. }
    rewrite (findFinalDestinationPath_dfsFind _ _ _ Htimed), Hst.
    simpl. eauto.
Qed.

(** X3: the search decides reachability on the schedule.  On the built tree
    it returns a path exactly when some sequence of targetTime elevators can
    be ridden from the starting elevator, each step boarding an elevator
    that the schedule puts on the current elevator's defined, non-zero floor
    at the index of that step, and ends on the target floor. *)
Theorem search_finds_path_iff_reachable (s : Schedule) (start : string)
    (root : Node) (finalFloor finalTimeInterval : Num) :
  buildElevatorPathTree s start = Ok root ->
  (exists p,
     findFinalDestinationPath root finalFloor finalTimeInterval
     = Ok (Some p))
  <-> (exists es z,
         finalTimeInterval = Int (Z.of_nat (length es))
         /\ finalFloor = Int z
         /\ rideable s start 0 es = true
         /\ simulate s start es = Some z).
Proof.
  intros Hb. apply buildElevatorPathTree_Ok in Hb as [_ ->].
  apply pathTree_search_reachable.
Qed.

Lemma search_finds_path_iff_reachable_witness :
  (exists p,
     findFinalDestinationPath (pathTree testCase1 (rootData testCase1 "A"))
       (Int 5) (Int 5) = Ok (Some p))
  <-> (exists es z,
         Int 5 = Int (Z.of_nat (length es))
         /\ Int 5 = Int z
         /\ rideable testCase1 "A" 0 es = true
         /\ simulate testCase1 "A" es = Some z).
Proof.
  apply (search_finds_path_iff_reachable testCase1 "A").
  vm_compute. reflexivity.
Defined.

(** ** The last step of a found path *)

Lemma atTarget_same (finalFloor finalTimeInterval : Num) (a b : Node) :
  time (data a) = time (data b) ->
  floor (data a) = floor (data b) ->
  atTarget finalFloor finalTimeInterval a
  = atTarget finalFloor finalTimeInterval b.
Proof. unfold atTarget. now intros -> ->. Qed.

Section LastStep.
Variable s : Schedule.
Variables finalFloor finalTimeInterval : Num.

(** What the recursive search returns below a node of the built tree:
    the node itself when it is at the target, and otherwise a path whose
    last two elevators are the same. *)
Lemma dfsFind_pathTree_stay (k : nat) :
  forall d prefix st,
    S (horizon s) - time d <= k ->
    dfsFind finalFloor finalTimeInterval prefix (pathTree s d) = Some st ->
    exists es,
      st = prefix ++ elevator d :: es
      /\ Forall (fun e => In e (keys s)) es
      /\ ((es = []
           /\ atTarget finalFloor finalTimeInterval (pathTree s d) = true)
          \/ (es <> []
              /\ List.last es (elevator d)
                 = List.last (removelast es) (elevator d))).
Proof.
  induction k as [|k IH]; intros d prefix st Hk Hst.
  - rewrite dfsFind_unfold, children_pathTree, data_pathTree in Hst.
    rewrite childData_beyond_horizon in Hst by lia.
    destruct (atTarget _ _ (pathTree s d)) eqn:Hat; [|discriminate].
    injection Hst as <-. exists []. auto.
  - rewrite dfsFind_unfold, children_pathTree, data_pathTree in Hst.
    destruct (atTarget _ _ (pathTree s d)) eqn:Hat.
    { injection Hst as <-. exists []. auto. }
    rewrite map_map in Hst.
    apply firstSome_map_Some in Hst as Hc. destruct Hc as (c & Hc & Hfound).
    pose proof (childData_In s d c Hc) as (Htc & Hkc & Htr & _ & Hfc & Hlt).
    assert (Htd : truthy (floorOf s (elevator d) (time d)) = true)
      by now rewrite <- Hfc.
    destruct (childData_truthy s d Htd) as [l Hl].
    set (c1 := mkData (elevator d) (floorOf s (elevator d) (time d))
                 (time d + 1)) in *.
    assert (Hk1 : In (elevator d) (keys s)).
    { assert (Hc1 : In c1 (childData s d)) by (rewrite Hl; now left).
      apply childData_In in Hc1. tauto. }
    assert (Hsame : atTarget finalFloor finalTimeInterval (pathTree s c)
                    = atTarget finalFloor finalTimeInterval (pathTree s c1)).
    { apply atTarget_same; rewrite !data_pathTree; simpl; assumption. }
    rewrite Hl in Hst. cbn [map firstSome] in Hst.
    destruct (dfsFind finalFloor finalTimeInterval (prefix ++ [elevator d])
                (pathTree s c1)) as [st1|] eqn:Hfirst.
    + injection Hst as ->.
      destruct (IH c1 _ _ ltac:(simpl; lia) Hfirst)
        as (es1 & -> & Hkeys1 & Hes1).
      exists (elevator d :: es1). rewrite <- app_assoc. simpl.
      split; [reflexivity|]. split; [now constructor|].
      right. split; [discriminate|].
      destruct Hes1 as [[-> _]|[Hne Heq]]; [reflexivity|].
      destruct es1 as [|y es1]; [contradiction|].
      change (List.last (y :: es1) (elevator d)
              = List.last (elevator d :: removelast (y :: es1)) (elevator d)).
      rewrite (last_cons_default (elevator d)). exact Heq.
    + destruct (IH c _ _ ltac:(lia) Hfound) as (es' & -> & Hkeys' & Hes').
      exists (elevator c :: es'). rewrite <- app_assoc.
      split; [reflexivity|]. split; [now constructor|].
      right. split; [discriminate|].
      destruct Hes' as [[-> Hatc]|[Hne Heq]].
      * rewrite Hsame in Hatc.
        rewrite dfsFind_unfold, Hatc in Hfirst. discriminate.
      * destruct es' as [|y es']; [contradiction|].
        change (removelast (elevator c :: y :: es'))
          with (elevator c :: removelast (y :: es')).
        rewrite (last_cons_default (elevator c) (elevator d) (y :: es')).
        rewrite (last_cons_default (elevator c) (elevator d)
                   (removelast (y :: es'))).
        exact Heq.
Qed.

End LastStep.



(** ** The shape of the built tree *)

Lemma flat_map_transferChild (s : Schedule) (d : NodeData) (next : option Z)
    (names : list string) :
  flat_map (transferChild s d next) names
  = map (fun e => mkData e (floorOf s e (time d)) (time d + 1))
      (List.filter
         (fun e => truthy (floorOf s e (time d))
                   && negb (String.eqb (elevator d) e)
                   && strictEq next (floorOf s e (time d)))
         names).
Proof.
  induction names as [|e names IH]; [reflexivity|].
  simpl. rewrite IH. unfold transferChild.
  destruct (_ && _); reflexivity.
Qed.

Lemma childData_formula (s : Schedule) (d : NodeData) :
  childData s d
  = if truthy (floorOf s (elevator d) (time d))
    then mkData (elevator d) (floorOf s (elevator d) (time d)) (time d + 1)
         :: map (fun e => mkData e (floorOf s (elevator d) (time d))
                            (time d + 1))
              (List.filter
                 (fun e => negb (String.eqb (elevator d) e)
                           && strictEq (floorOf s (elevator d) (time d))
                                (floorOf s e (time d)))
                 (keys s))
    else [].
Proof.
  destruct (truthy (floorOf s (elevator d) (time d))) eqn:Ht;
    [|now apply childData_falsy].
  destruct (floorOf_truthy_get s _ _ Ht) as (row & Hrow & Hf).
  unfold childData. rewrite Hrow. cbn zeta. rewrite <- Hf, Ht.
  rewrite flat_map_transferChild. simpl. f_equal.
  set (v := floorOf s (elevator d) (time d)) in *.
  induction (keys s) as [|e l IH]; [reflexivity|].
  simpl. destruct (String.eqb (elevator d) e); simpl.
  - rewrite andb_false_r. exact IH.
  - rewrite andb_true_r.
    destruct (strictEq v (floorOf s e (time d))) eqn:Heq.
    + apply strictEq_eq in Heq. rewrite <- Heq, Ht. simpl.
      rewrite IH. now rewrite <- Heq.
    + rewrite andb_false_r. exact IH.
Qed.

(** X5: the children of a node of the built tree, in order: none when the
    node's elevator has 0 or nothing at the node's time index; otherwise the
    node's own elevator first, then every other elevator of the schedule
    that has the same floor at that index, in the order of the schedule's
    keys; all of them on that floor, one time step later. *)
Theorem children_of_built_node (s : Schedule) (start : string)
    (root n : Node) :
  buildElevatorPathTree s start = Ok root ->
  In n (nodes root) ->
  map data (children n)
  = if truthy (floorOf s (elevator (data n)) (time (data n)))
    then mkData (elevator (data n))
           (floorOf s (elevator (data n)) (time (data n)))
           (time (data n) + 1)
         :: map (fun e => mkData e
                            (floorOf s (elevator (data n)) (time (data n)))
                            (time (data n) + 1))
              (List.filter
                 (fun e => negb (String.eqb (elevator (data n)) e)
                           && strictEq
                                (floorOf s (elevator (data n))
                                   (time (data n)))
                                (floorOf s e (time (data n))))
                 (keys s))
    else [].
Proof.
  intros Hb Hn. apply buildElevatorPathTree_Ok in Hb as [_ ->].
  apply nodes_pathTree in Hn.
  rewrite <- childData_formula.
  remember (data n) as dn eqn:Hdn. rewrite Hn.
  rewrite children_pathTree, map_map.
  rewrite (map_ext _ (fun d => d)) by (intros d; apply data_pathTree).
  apply map_id.
Qed.

Lemma children_of_built_node_witness :
  map data
    (children
       (mkNode (mkData "B" (Some 3%Z) 3)
          [mkNode (mkData "B" (Some 4%Z) 4)
             [mkNode (mkData "B" (Some 2%Z) 5) [];
              mkNode (mkData "A" (Some 2%Z) 5) []];
           mkNode (mkData "D" (Some 4%Z) 4)
             [mkNode (mkData "D" (Some 5%Z) 5) []]]))
  = if truthy (floorOf testCase1 "B" 3)
    then mkData "B" (floorOf testCase1 "B" 3) (3 + 1)
         :: map (fun e => mkData e (floorOf testCase1 "B" 3) (3 + 1))
              (List.filter
                 (fun e => negb (String.eqb "B" e)
                           && strictEq (floorOf testCase1 "B" 3)
                                (floorOf testCase1 e 3))
                 (keys testCase1))
    else [].
Proof.
  apply (children_of_built_node testCase1 "A"
           (pathTree testCase1 (rootData testCase1 "A"))
           (mkNode (mkData "B" (Some 3%Z) 3)
              [mkNode (mkData "B" (Some 4%Z) 4)
                 [mkNode (mkData "B" (Some 2%Z) 5) [];
                  mkNode (mkData "A" (Some 2%Z) 5) []];
               mkNode (mkData "D" (Some 4%Z) 4)
                 [mkNode (mkData "D" (Some 5%Z) 5) []]])).
  - vm_compute. reflexivity.
  - find_node.
Defined.

Lemma reach_nonempty (r n : Node) (ns : list Node) :
  reach r ns n -> ns <> [].
Proof. intros [|ms m c _ _]; [discriminate|now destruct ms]. Qed.

Lemma reach_trans (r x n : Node) (ns ms : list Node) :
  reach r ns x -> reach x ms n -> reach r (ns ++ tl ms) n.
Proof.
  intros Hrx Hxn. induction Hxn as [|ms n c Hxn IH Hc].
  - simpl. now rewrite app_nil_r.
  - assert (Hms : tl (ms ++ [c]) = tl ms ++ [c]).
    { pose proof (reach_nonempty _ _ _ Hxn).
      destruct ms as [|m ms]; [contradiction|reflexivity]. }
    rewrite Hms, app_assoc. now apply reach_child with n.
Qed.

(** Every node of a tree is at the end of a path from the root. *)
Lemma nodes_reach (root : Node) :
  forall n, In n (nodes root) -> exists ns, reach root ns n.
Proof.
  induction root as [d cs IH] using Node_induction. intros n Hn.
  simpl in Hn. destruct Hn as [<-|Hn].
  - exists [mkNode d cs]. constructor.
  - apply in_flat_map in Hn as (c & Hc & Hn).
    rewrite Forall_forall in IH.
    destruct (IH c (proj2 (list_elem_of_In _ _) Hc) n Hn) as [ms Hms].
    exists (([mkNode d cs] ++ [c]) ++ tl ms).
    apply (reach_trans _ c); [|assumption].
    apply reach_child with (mkNode d cs); [constructor|assumption].
Qed.

(** X6: the root of the built tree carries the starting elevator, the first
    entry of its floor array ([undefined] when the array is empty) and time
    0, whatever the loop did after creating it. *)
Theorem root_of_built_tree (s : Schedule) (start : string) (root : Node) :
  buildElevatorPathTree s start = Ok root ->
  data root = mkData start (floorOf s start 0) 0.
Proof.
  intros Hb. apply buildElevatorPathTree_Ok in Hb as [_ ->].
  apply data_pathTree.
Qed.

Lemma root_of_built_tree_witness :
  data (pathTree testCase1 (rootData testCase1 "A"))
  = mkData "A" (floorOf testCase1 "A" 0) 0.
Proof.
  apply (root_of_built_tree testCase1 "A"). vm_compute. reflexivity.
Defined.

(** X7: in the built tree the time index of a node is its depth: every node
    is at the end of a path from the root, such a path has one node more
    than the node's time index, and no node lies deeper than the horizon. *)
Theorem time_index_is_depth (s : Schedule) (start : string) (root n : Node) :
  buildElevatorPathTree s start = Ok root ->
  In n (nodes root) ->
  (exists ns, reach root ns n)
  /\ (forall ns, reach root ns n -> length ns = S (time (data n)))
  /\ time (data n) <= horizon s.
Proof.
  intros Hb Hn. apply buildElevatorPathTree_Ok in Hb as [_ ->].
  set (d0 := mkData start (floorOf s start 0) 0) in *.
  split; [now apply nodes_reach|]. split.
  - intros ns Hr.
    now destruct (reach_timed _ _ _ (timed_pathTree s d0) Hr).
  - now apply (nodes_pathTree_time s d0).
Qed.

Lemma time_index_is_depth_witness :
  (exists ns,
     reach (pathTree testCase1 (rootData testCase1 "A")) ns
       (mkNode (mkData "D" (Some 5%Z) 5) []))
  /\ (forall ns,
        reach (pathTree testCase1 (rootData testCase1 "A")) ns
          (mkNode (mkData "D" (Some 5%Z) 5) []) ->
        length ns = S 5)
  /\ 5 <= horizon testCase1.
Proof.
  apply (time_index_is_depth testCase1 "A"
           (pathTree testCase1 (rootData testCase1 "A"))
           (mkNode (mkData "D" (Some 5%Z) 5) [])).
  - vm_compute. reflexivity.
  - find_node.
Defined.

(** ** Edge cases of the query *)


(** X9: a target time that is [NaN] or negative, or a target floor that is
    [NaN], is never found: on every tree the search returns [null]. *)
Theorem search_null_on_unusable_target (root : Node)
    (finalFloor finalTimeInterval : Num) :
  finalTimeInterval = NaN
  \/ (exists z, finalTimeInterval = Int z /\ (z < 0)%Z)
  \/ finalFloor = NaN ->
  findFinalDestinationPath root finalFloor finalTimeInterval = Ok None.
Proof.
  intros H. apply findFinalDestinationPath_None. intros n _.
  unfold atTarget. destruct H as [->|[(z & -> & Hz)| ->]].
  - reflexivity.
  - simpl. destruct (Z.eqb_spec (Z.of_nat (time (data n))) z); [lia|].
    reflexivity.
  - destruct (floor (data n)); simpl; now rewrite andb_false_r.
Qed.

Lemma search_null_on_unusable_target_witness :
  findFinalDestinationPath (pathTree testCase1 (rootData testCase1 "A"))
    (Int 5) (Int (-1)) = Ok None.
Proof.
  apply search_null_on_unusable_target.
  right. left. exists (-1)%Z. split; [reflexivity|lia].
Defined.

(** X10: for the target time 0 only the root is examined: the search returns
    the starting identifier less its first character when the first entry
    of the starting elevator's floor array is the target floor, and [null]
    otherwise.  So for a starting identifier of at most one character the
    query at time 0 always returns the no-solution text, the empty path
    being falsy. *)
Theorem query_at_time_zero (s : Schedule) (start : string) (root : Node)
    (finalFloor : Num) :
  buildElevatorPathTree s start = Ok root ->
  findFinalDestinationPath root finalFloor (Int 0)
  = Ok (if strictEqNum (floorOf s start 0) finalFloor
        then Some (substring1 start)
        else None)
  /\ (String.length start <= 1 ->
      findElevatorPath s start finalFloor (Int 0) = Ok noSolution).
Proof.
  intros Hb.
  assert (Hsearch : findFinalDestinationPath root finalFloor (Int 0)
            = Ok (if strictEqNum (floorOf s start 0) finalFloor
                  then Some (substring1 start)
                  else None)).
  { apply buildElevatorPathTree_Ok in Hb as [_ ->].
    set (d0 := mkData start (floorOf s start 0) 0).
    pose proof (timed_pathTree s d0) as Htimed.
    destruct (strictEqNum (floorOf s start 0) finalFloor) eqn:Hfl.
    - rewrite (findFinalDestinationPath_dfsFind _ _ _ Htimed).
      rewrite dfsFind_unfold. unfold atTarget.
      rewrite data_pathTree. simpl. rewrite Hfl. simpl.
      unfold encode, join. simpl. reflexivity.
    - apply findFinalDestinationPath_None. intros n Hn.
      unfold atTarget. rewrite nodes_cons in Hn. destruct Hn as [<-|Hn].
      + rewrite data_pathTree. simpl. now rewrite Hfl.
      + apply descendants_pathTree in Hn as (_ & dp & Hdp).
        apply childData_In in Hdp as (Ht & _). simpl.
        destruct (Z.eqb_spec (Z.of_nat (time (data n))) 0); [lia|].
        reflexivity. }
  split; [exact Hsearch|].
  intros Hlen. unfold findElevatorPath. rewrite Hb, Hsearch.
  destruct (strictEqNum (floorOf s start 0) finalFloor); [|reflexivity].
  destruct start as [|c [|c' rest]]; try reflexivity.
  simpl in Hlen. lia.
Qed.

Lemma query_at_time_zero_witness :
  findFinalDestinationPath (pathTree testCase1 (rootData testCase1 "A"))
    (Int 1) (Int 0)
  = Ok (if strictEqNum (floorOf testCase1 "A" 0) (Int 1)
        then Some (substring1 "A")
        else None)
  /\ (String.length "A" <= 1 ->
      findElevatorPath testCase1 "A" (Int 1) (Int 0) = Ok noSolution).
Proof.
  apply (query_at_time_zero testCase1 "A"). vm_compute. reflexivity.
Defined.

(** ** Breadth-first traversal *)

Lemma traverseLoop_bfsOrder {St : Type} (callback : Node -> St -> St)
    (fuel : nat) :
  forall queue st,
    list_sum (map size queue) <= fuel ->
    traverseLoop fuel callback queue st
    = Ok (fold_left (fun st n => callback n st) (bfsOrder fuel queue) st).
Proof.
  induction fuel as [|fuel IH]; intros [|n rest] st Hfuel; try reflexivity.
  - simpl in Hfuel. rewrite size_children in Hfuel. lia.
  - simpl in Hfuel. rewrite size_children in Hfuel.
    simpl. apply IH. rewrite map_app, list_sum_app. lia.
Qed.

Lemma bfsOrder_Permutation (fuel : nat) :
  forall queue,
    list_sum (map size queue) <= fuel ->
    Permutation (bfsOrder fuel queue) (flat_map nodes queue).
Proof.
  induction fuel as [|fuel IH]; intros [|n rest] Hfuel; try reflexivity.
  - simpl in Hfuel. rewrite size_children in Hfuel. lia.
  - simpl in Hfuel. rewrite size_children in Hfuel.
    cbn [bfsOrder flat_map]. rewrite nodes_cons. simpl.
    constructor. rewrite IH by (rewrite map_app, list_sum_app; lia).
    rewrite flat_map_app. apply Permutation_app_comm.
Qed.

Lemma bfsOrder_In (fuel : nat) :
  forall queue b,
    In b (bfsOrder fuel queue) -> exists c, In c queue /\ In b (nodes c).
Proof.
  induction fuel as [|fuel IH]; intros [|n rest] b Hb; try destruct Hb.
  - subst b. exists n. split; [now left|apply nodes_self].
  - destruct (IH _ _ H) as (c & Hc & Hbc).
    apply in_app_iff in Hc as [Hc|Hc].
    + exists c. split; [now right|assumption].
    + exists n. split; [now left|]. eapply nodes_child; eauto.
Qed.

Lemma ascending_app (l1 l2 : list Node) :
  ascending l1 -> ascending l2 ->
  (forall a b, In a l1 -> In b l2 -> time (data a) <= time (data b)) ->
  ascending (l1 ++ l2).
Proof.
  induction l1 as [|c l1 IH]; simpl; intros H1 H2 H12; [assumption|].
  destruct H1 as [Hc H1]. split.
  - intros b Hb. apply in_app_iff in Hb as [Hb|Hb]; auto.
  - apply IH; auto.
Qed.

Lemma ascending_same (k : nat) (l : list Node) :
  (forall c, In c l -> time (data c) = k) -> ascending l.
Proof.
  induction l as [|c l IH]; simpl; intros H; [exact I|].
  split.
  - intros b Hb. rewrite (H c), (H b); auto.
  - apply IH. auto.
Qed.

Lemma ascending_lookup (l : list Node) :
  ascending l ->
  forall i j a b,
    i <= j -> l !! i = Some a -> l !! j = Some b ->
    time (data a) <= time (data b).
Proof.
  induction l as [|x l IH]; intros Hasc i j a b Hij Hi Hj; [discriminate|].
  destruct Hasc as [Hx Hasc]. destruct i as [|i], j as [|j]; simpl in *.
  - injection Hi as <-. injection Hj as <-. lia.
  - injection Hi as <-. apply Hx.
    apply list_elem_of_In. eapply list_elem_of_lookup_2; eauto.
  - lia.
  - apply (IH Hasc i j); auto. lia.
Qed.

(** On trees whose time indices are depths, a work list that is in
    ascending order and spans at most two levels is visited in ascending
    order. *)
Lemma bfsOrder_ascending (fuel : nat) :
  forall queue,
    (forall c, In c queue -> timed (time (data c)) c) ->
    ascending queue ->
    (forall a b, In a queue -> In b queue ->
       time (data b) <= S (time (data a))) ->
    ascending (bfsOrder fuel queue).
Proof.
  induction fuel as [|fuel IH]; intros [|n rest] Htimed Hasc Hspan;
    try exact I.
  destruct Hasc as [Hn Hasc]. cbn [bfsOrder ascending].
  assert (Hkids : forall c, In c (children n) ->
            timed (time (data c)) c /\ time (data c) = S (time (data n))).
  { intros c Hc.
    pose proof (timed_child _ _ _ (Htimed n (or_introl eq_refl)) Hc) as Ht.
    rewrite (timed_time _ _ Ht). auto. }
  assert (Htimed' : forall c, In c (rest ++ children n) ->
            timed (time (data c)) c).
  { intros c Hc. apply in_app_iff in Hc as [Hc|Hc].
    - apply Htimed. now right.
    - now apply Hkids. }
  split.
  - intros b Hb. apply bfsOrder_In in Hb as (c & Hc & Hb).
    pose proof (timed_nodes_time c _ b (Htimed' c Hc) Hb) as Hcb.
    apply in_app_iff in Hc as [Hc|Hc].
    + pose proof (Hn c Hc). lia.
    + destruct (Hkids c Hc) as [_ Heq]. lia.
  - apply IH.
    + exact Htimed'.
    + apply ascending_app; [assumption| |].
      * apply (ascending_same (S (time (data n)))).
        intros c Hc. now apply Hkids.
      * intros a b Ha Hb. destruct (Hkids b Hb) as [_ ->].
        apply (Hspan n a); [now left|now right].
    + intros a b Ha Hb.
      apply in_app_iff in Ha as [Ha|Ha]; apply in_app_iff in Hb as [Hb|Hb].
      * apply Hspan; now right.
      * destruct (Hkids b Hb) as [_ ->]. pose proof (Hn a Ha). lia.
      * destruct (Hkids a Ha) as [_ ->].
        pose proof (Hspan n b (or_introl eq_refl) (or_intror Hb)). lia.
      * destruct (Hkids a Ha) as [_ ->]. destruct (Hkids b Hb) as [_ ->].
        lia.
Qed.

(** X11: the breadth-first traversal comes to an end on every tree, calls
    the callback on every node exactly once, the root first, and its effect
    is that of folding the callback over the nodes in the order in which
    they leave the work list. *)
Theorem traversal_visits_every_node_once (root : Node) :
  (forall (St : Type) (callback : Node -> St -> St) (st : St),
     traverseBreadthFirst root callback st
     = Ok (fold_left (fun st n => callback n st)
             (bfsOrder (size root) [root]) st))
  /\ Permutation (bfsOrder (size root) [root]) (nodes root)
  /\ head (bfsOrder (size root) [root]) = Some root.
Proof.
  split; [|split].
  - intros St callback st. apply traverseLoop_bfsOrder. simpl. lia.
  - rewrite bfsOrder_Permutation by (simpl; lia).
    simpl. now rewrite app_nil_r.
  - rewrite size_children. reflexivity.
Qed.

(** X12: on the built tree the breadth-first traversal calls the callback
    level by level: the time indices of the visited nodes never decrease. *)
Theorem traversal_of_built_tree_by_time (s : Schedule) (start : string)
    (root : Node) (i j : nat) (a b : Node) :
  buildElevatorPathTree s start = Ok root ->
  i <= j ->
  bfsOrder (size root) [root] !! i = Some a ->
  bfsOrder (size root) [root] !! j = Some b ->
  time (data a) <= time (data b).
Proof.
  intros Hb. apply buildElevatorPathTree_Ok in Hb as [_ ->].
  set (d0 := mkData start (floorOf s start 0) 0).
  apply ascending_lookup. apply bfsOrder_ascending.
  - intros c [<-|[]]. rewrite data_pathTree. apply timed_pathTree.
  - split; [intros x []|exact I].
  - intros x y [<-|[]] [<-|[]]. lia.
Qed.

Lemma traversal_of_built_tree_by_time_witness :
  time (data (mkNode (mkData "A" (Some 1%Z) 2) []))
  <= time (data (mkNode (mkData "B" (Some 1%Z) 2) [])).
Proof.
  apply (traversal_of_built_tree_by_time
           [("A", [1; 1]%Z); ("B", [1; 1]%Z)] "A"
           (pathTree [("A", [1; 1]%Z); ("B", [1; 1]%Z)]
              (rootData [("A", [1; 1]%Z); ("B", [1; 1]%Z)] "A"))
           3 5).
  - vm_compute. reflexivity.
  - lia.
  - vm_compute. reflexivity.
  - vm_compute. reflexivity.
Defined.

(** ** The no-solution text and one-character identifiers *)

Lemma single_chars_join (es : list string) :
  Forall (fun e => String.length e = 1) es ->
  es = map (fun c => String c EmptyString)
         (String.list_ascii_of_string (join es)).
Proof.
  induction 1 as [|e es He _ IH]; [reflexivity|].
  rewrite join_cons.
  destruct e as [|c [|c' e]]; try discriminate.
  change (String.append (String c EmptyString) (join es))
    with (String c (join es)).
  simpl. now rewrite <- IH.
Qed.

Lemma join_single_nonempty (es : list string) :
  Forall (fun e => String.length e = 1) es ->
  es <> [] -> join es <> EmptyString.
Proof.
  intros Hs Hne Hj. apply single_chars_join in Hs. rewrite Hj in Hs.
  simpl in Hs. contradiction.
Qed.

(** X13: for a schedule whose identifiers are all one character long and a
    target time of at least 1, the query is exact: it returns the
    no-solution text exactly when no sequence of targetTime elevators can be
    ridden from the starting elevator to the target floor.  In particular a
    found path is never mistaken for the no-solution text. *)
Theorem query_no_solution_iff_unreachable (s : Schedule) (start : string)
    (finalFloor : Num) (targetTime : Z) :
  Forall (fun e => String.length e = 1) (keys s) ->
  In start (keys s) ->
  (1 <= targetTime)%Z ->
  findElevatorPath s start finalFloor (Int targetTime) = Ok noSolution
  <-> ~ (exists es z,
           Int targetTime = Int (Z.of_nat (length es))
           /\ finalFloor = Int z
           /\ rideable s start 0 es = true
           /\ simulate s start es = Some z).
Proof.
  intros Hsingle Hstart Htime.
  pose proof (pathTree_search_reachable s start finalFloor (Int targetTime))
    as Hreach.
  unfold findElevatorPath.
  rewrite (buildElevatorPathTree_total s start Hstart).
  fold (rootData s start). set (d0 := rootData s start) in *.
  rewrite (findFinalDestinationPath_dfsFind _ _ _ (timed_pathTree s d0))
    in Hreach |- *.
  destruct (dfsFind finalFloor (Int targetTime) [] (pathTree s d0))
    as [st|] eqn:Hst.
  - assert (Hyes : exists p, Ok (encode <$> Some st) = Ok (Some p) :> Outcome _)
      by (simpl; eauto).
    apply Hreach in Hyes. split; [|tauto].
    intros Hq. exfalso.
    destruct (dfsFind_pathTree_stay s finalFloor (Int targetTime)
                (S (horizon s)) d0 [] st ltac:(lia) Hst)
      as (es & -> & Hkeys & Hes).
    assert (Hes1 : Forall (fun e => String.length e = 1) es).
    { rewrite Forall_forall in Hkeys, Hsingle |- *.
      intros e He. apply Hsingle, list_elem_of_In, Hkeys, He. }
    assert (Hstart1 : String.length start = 1).
    { rewrite Forall_forall in Hsingle.
      now apply Hsingle, list_elem_of_In. }
    assert (Henc : encode ([] ++ elevator d0 :: es) = join es).
    { unfold encode. change ([] ++ elevator d0 :: es) with (start :: es).
      rewrite join_cons. now apply substring1_single. }
    change (encode <$> Some ([] ++ elevator d0 :: es))
      with (Some (encode ([] ++ elevator d0 :: es))) in Hq.
    rewrite Henc in Hq. injection Hq as Hq.
    destruct Hes as [[-> Hat]|[Hne Heq]].
    + apply atTarget_true in Hat as [Hft _].
      rewrite data_pathTree in Hft. simpl in Hft. injection Hft as ->. lia.
    + pose proof (join_single_nonempty es Hes1 Hne) as Hnonempty.
      assert (Hj : join es = noSolution).
      { destruct (join es) eqn:Ej; [contradiction|exact Hq]. }
      apply single_chars_join in Hes1. rewrite Hj in Hes1.
      rewrite Hes1 in Heq. vm_compute in Heq. discriminate.
  - split; [|reflexivity].
    intros _ Hyes. apply Hreach in Hyes as [p Hp]. discriminate.
Qed.

Lemma query_no_solution_iff_unreachable_witness :
  findElevatorPath testCase3 "B" (Int 2) (Int 6) = Ok noSolution
  <-> ~ (exists es z,
           Int 6 = Int (Z.of_nat (length es))
           /\ Int 2 = Int z
           /\ rideable testCase3 "B" 0 es = true
           /\ simulate testCase3 "B" es = Some z).
Proof.
  apply (query_no_solution_iff_unreachable testCase3 "B" (Int 2) 6).
  - repeat constructor.
  - simpl. tauto.
  - lia.
Defined.

(** ** The size of the built tree *)

Lemma length_nodes (n : Node) : length (nodes n) = size n.
Proof.
  induction n as [d cs IH] using Node_induction. simpl. f_equal.
  induction IH as [|c cs Hc _ IHcs]; [reflexivity|].
  simpl. rewrite length_app, Hc, IHcs. reflexivity.
Qed.

Lemma length_filter_excluded {A : Type} (f : A -> bool) (l : list A) (x : A) :
  In x l -> f x = false -> S (length (List.filter f l)) <= length l.
Proof.
  induction l as [|y l IH]; simpl; [tauto|].
  intros [->|Hx] Hfx.
  - rewrite Hfx. pose proof (List.filter_length_le f l). lia.
  - specialize (IH Hx Hfx). destruct (f y); simpl; lia.
Qed.

Lemma length_childData_keys (s : Schedule) (d : NodeData) :
  In (elevator d) (keys s) -> length (childData s d) <= length s.
Proof.
  intros Hkey. rewrite childData_formula.
  destruct (truthy _); simpl; [|lia].
  rewrite length_map.
  pose proof (length_filter_excluded
                (fun e => negb (String.eqb (elevator d) e)
                          && strictEq (floorOf s (elevator d) (time d))
                               (floorOf s e (time d)))
                (keys s) (elevator d) Hkey) as H.
  cbv beta in H. rewrite String.eqb_refl in H. specialize (H eq_refl).
  unfold keys in H at 2. rewrite length_map in H. lia.
Qed.

Lemma size_pathTree_bound_keys (s : Schedule) (n : nat) :
  forall d,
    In (elevator d) (keys s) ->
    horizon s - time d <= n ->
    size (pathTree s d) <= fullTreeSize (length s) n.
Proof.
  induction n as [|n IH]; intros d Hkey Hn.
  - rewrite size_pathTree, childData_beyond_horizon by lia. simpl. lia.
  - rewrite size_pathTree.
    assert (Hsum : list_sum (map (fun c => size (pathTree s c))
                              (childData s d))
                   <= length (childData s d) * fullTreeSize (length s) n).
    { apply list_sum_bound. intros c Hc.
      apply childData_In in Hc as (Ht & Hk & _). apply IH; [assumption|lia]. }
    pose proof (length_childData_keys s d Hkey) as Hlen.
    change (fullTreeSize (length s) (S n))
      with (1 + length s * fullTreeSize (length s) n).
    nia.
Qed.

(** X14: the built tree of a schedule with N elevators and horizon M has at
    most 1 + N + N^2 + ... + N^M nodes. *)
Theorem built_tree_size_bound (s : Schedule) (start : string) (root : Node) :
  buildElevatorPathTree s start = Ok root ->
  length (nodes root) <= fullTreeSize (length s) (horizon s).
Proof.
  intros Hb. apply buildElevatorPathTree_Ok in Hb as [Hkey ->].
  rewrite length_nodes. apply size_pathTree_bound_keys; simpl; [assumption|].
  lia.
Qed.

Lemma built_tree_size_bound_witness :
  length (nodes (pathTree testCase1 (rootData testCase1 "A")))
  <= fullTreeSize (length testCase1) (horizon testCase1).
Proof.
  apply (built_tree_size_bound testCase1 "A"). vm_compute. reflexivity.
Defined.

(** ** One node per sequence of elevators *)






(** ** Creation order and breadth-first order *)

Lemma allocated_stable (k i : nat) (h new : Heap) (f : Cell -> Cell) :
  i <= k -> k < length h ->
  allocated i (alter f k h ++ new) = allocated i h.
Proof.
  intros Hik Hk. unfold allocated.
  rewrite take_app_le by (rewrite length_alter; lia).
  now rewrite take_alter_ge by lia.
Qed.

Lemma layout_step (k : nat) (h new : Heap) (cell : Cell) :
  layoutInv k h ->
  h !! k = Some cell ->
  ckids cell = [] ->
  layoutInv (S k)
    (alter (fun c => mkCell (cdata c)
                       (ckids c ++ seq (length h) (length new))) k h
     ++ new).
Proof.
  intros [Hlen Hkids Hgt] Hk Hnone.
  pose proof (lookup_lt_Some _ _ _ Hk) as Hlt.
  set (f := fun c => mkCell (cdata c)
                       (ckids c ++ seq (length h) (length new))).
  assert (Hself : (alter f k h ++ new) !! k
                  = Some (mkCell (cdata cell) (seq (length h) (length new)))).
  { rewrite lookup_app_l by (now rewrite length_alter).
    rewrite list_lookup_alter_eq, Hk. unfold f. simpl. now rewrite Hnone. }
  constructor.
  - unfold allocated. rewrite (take_S_r _ _ _ Hself).
    rewrite take_app_le by (rewrite length_alter; lia).
    rewrite take_alter_ge by lia.
    rewrite map_app, concat_app, !length_app, length_alter. simpl.
    rewrite app_nil_r, length_seq. unfold allocated in Hlen. lia.
  - intros i c Hi Hc. rewrite (allocated_stable k i) by lia.
    destruct (decide (i = k)) as [->|Hne].
    + rewrite Hself in Hc. injection Hc as <-. simpl.
      now rewrite length_seq, <- Hlen.
    + rewrite lookup_app_l in Hc by (rewrite length_alter; lia).
      rewrite list_lookup_alter_ne in Hc by auto.
      apply Hkids; [lia|assumption].
  - intros i Hi. rewrite (allocated_stable k i) by lia.
    destruct (decide (i = k)) as [->|Hne]; [now rewrite <- Hlen|].
    apply Hgt. lia.
Qed.

Section CreationOrder.
Variable s : Schedule.

(** When the loop ends, the heap holds one cell per node of the trees that
    were still to be built, laid out in the order of expansion. *)
Lemma buildLoop_layout (fuel : nat) :
  forall k h h',
    buildInv s k h ->
    layoutInv k h ->
    buildLoop fuel s h (seq k (length h - k)) = Ok h' ->
    layoutInv (length h') h' /\ length h' = k + pending s k h.
Proof.
  induction fuel as [|fuel IH]; intros k h h' Hinv Hlay Hrun;
    pose proof (inv_le _ _ _ Hinv) as Hle;
    destruct (decide (k = length h)) as [->|Hne].
  - rewrite Nat.sub_diag in Hrun. injection Hrun as <-.
    split; [assumption|]. unfold pending. rewrite drop_all. simpl. lia.
  - replace (length h - k) with (S (length h - S k)) in Hrun by lia.
    discriminate.
  - rewrite Nat.sub_diag in Hrun. injection Hrun as <-.
    split; [assumption|]. unfold pending. rewrite drop_all. simpl. lia.
  - destruct (lookup_lt_is_Some_2 h k) as [cell Hk]; [lia|].
    destruct (expand_inv s k h cell Hinv Hk) as (Hinv' & _ & Hp).
    replace (length h - k) with (S (length h - S k)) in Hrun by lia.
    simpl in Hrun.
    rewrite (expandStep_attachAll s k h _ cell Hk
               (inv_keys _ _ _ Hinv _ _ Hk)) in Hrun.
    rewrite attachAll_closed in Hrun by lia. simpl in Hrun.
    set (cd := childData s (cdata cell)) in *.
    pose proof (layout_step k h (map (fun d => mkCell d []) cd) cell Hlay Hk
                  (inv_todo _ _ _ Hinv _ _ Hk (Nat.le_refl k))) as Hlay'.
    rewrite length_map in Hlay'.
    set (h1 := alter _ k h ++ map _ cd) in *.
    assert (Hlen : length h1 = length h + length cd).
    { unfold h1. now rewrite length_app, length_alter, length_map. }
    destruct (IH (S k) h1 h' Hinv' Hlay') as [Hfin Hsize].
    + rewrite <- Hrun. f_equal. rewrite Hlen.
      replace (length h + length cd - S k)
        with ((length h - S k) + length cd) by lia.
      rewrite seq_app. do 2 f_equal. lia.
    + split; [assumption|]. lia.
Qed.

(** In a finished heap the tree below a cell has, as children, the trees
    below the cells of the cell's children. *)
Lemma children_of_cell (h : Heap) (k : nat) (cell : Cell) :
  buildInv s (length h) h ->
  layoutInv (length h) h ->
  h !! k = Some cell ->
  children (pathTree s (cdata cell))
  = map (fun c => pathTree s (cdata c))
      (take (length (ckids cell)) (drop (allocated k h) h)).
Proof.
  intros Hinv Hlay Hk. pose proof (lookup_lt_Some _ _ _ Hk) as Hlt.
  destruct (inv_done _ _ _ Hinv k cell Hk Hlt) as (base & _ & Hkids & Hdata).
  pose proof (lay_kids _ _ Hlay k cell Hlt Hk) as Hseq.
  rewrite children_pathTree.
  set (cd := childData s (cdata cell)) in *.
  assert (Hn : length (ckids cell) = length cd)
    by (now rewrite Hkids, length_seq).
  rewrite Hn in *. rewrite Hkids in Hseq.
  apply list_eq. intros j. rewrite !lookup_map.
  destruct (cd !! j) as [d|] eqn:Hd.
  - pose proof (lookup_lt_Some _ _ _ Hd) as Hj.
    assert (base = allocated k h).
    { destruct (length cd); [lia|]. simpl in Hseq. now injection Hseq. }
    subst base.
    destruct (Hdata j d Hd) as (c & Hc & <-).
    rewrite lookup_take_lt by assumption.
    rewrite lookup_drop, Hc. reflexivity.
  - apply lookup_ge_None in Hd.
    now rewrite lookup_take_ge by assumption.
Qed.

(** On a finished heap the traversal of the work list that holds the trees
    of the cells from [k] up to the last one allocated visits the trees of
    all the cells from [k] on, in the order of the heap. *)
Lemma bfsOrder_heap (h : Heap) :
  buildInv s (length h) h ->
  layoutInv (length h) h ->
  forall fuel k,
    fuel + k = length h ->
    bfsOrder fuel
      (map (fun c => pathTree s (cdata c))
         (take (allocated k h - k) (drop k h)))
    = map (fun c => pathTree s (cdata c)) (drop k h).
Proof.
  intros Hinv Hlay. induction fuel as [|fuel IH]; intros k Hk.
  - rewrite drop_ge by lia. now rewrite take_nil.
  - destruct (lookup_lt_is_Some_2 h k) as [cell Hcell]; [lia|].
    pose proof (lay_gt _ _ Hlay k ltac:(lia)) as Hgt.
    rewrite (drop_S _ _ _ Hcell).
    replace (allocated k h - k) with (S (allocated k h - S k)) by lia.
    cbn [take map bfsOrder]. f_equal.
    rewrite <- (IH (S k)) by lia. f_equal.
    rewrite (children_of_cell h k cell Hinv Hlay Hcell), <- map_app.
    f_equal.
    assert (Hnext : allocated (S k) h
                    = allocated k h + length (ckids cell)).
    { unfold allocated. rewrite (take_S_r _ _ _ Hcell).
      rewrite map_app, concat_app, length_app. simpl.
      rewrite app_nil_r. lia. }
    rewrite Hnext.
    replace (allocated k h + length (ckids cell) - S k)
      with ((allocated k h - S k) + length (ckids cell)) by lia.
    rewrite <- take_take_drop, drop_drop.
    do 3 f_equal. lia.
Qed.

End CreationOrder.

(** X16: the breadth-first traversal visits the nodes of the built tree in
    the order in which the builder created them: the heap that the
    builder's loop leaves holds the cells in the order of their allocation,
    and the data of the visited nodes are the data of these cells, in that
    order. *)
Theorem traversal_in_creation_order (s : Schedule) (start : string)
    (root : Node) :
  buildElevatorPathTree s start = Ok root ->
  exists h,
    buildLoop (buildFuel s) s [mkCell (rootData s start) []] [0] = Ok h
    /\ map data (bfsOrder (size root) [root]) = map cdata h.
Proof.
  intros Hb. apply buildElevatorPathTree_Ok in Hb as [Hkey ->].
  fold (rootData s start). set (d0 := rootData s start).
  assert (Hinv : buildInv s 0 [mkCell d0 []]).
  { constructor; simpl.
    - lia.
    - intros [|i] c; simpl; [|discriminate]. now intros [= <-].
    - intros i c _ Hi. lia.
    - intros [|i] c; simpl; [|discriminate]. now intros [= <-]. }
  assert (Hlay : layoutInv 0 [mkCell d0 []]).
  { constructor; [reflexivity| |]; intros; lia. }
  assert (Hfuel : pending s 0 [mkCell d0 []] <= buildFuel s).
  { unfold pending. change (drop 0 [mkCell d0 []]) with [mkCell d0 []].
    cbn [map cdata].
    assert (Hb : size (pathTree s d0) <= buildFuel s)
      by (apply size_pathTree_bound; simpl; lia).
    unfold list_sum, foldr. lia. }
  destruct (buildLoop_runs s (buildFuel s) 0 [mkCell d0 []] Hinv Hfuel)
    as (h & Hrun & Hfin & Hst).
  simpl in Hrun.
  destruct (buildLoop_layout s (buildFuel s) 0 [mkCell d0 []] h Hinv Hlay
              Hrun) as [Hlayfin Hsize].
  exists h. split; [exact Hrun|].
  destruct (Hst 0 (mkCell d0 []) eq_refl) as (c0 & Hc0 & Hd0).
  simpl in Hd0.
  assert (Hsz : size (pathTree s d0) = length h).
  { rewrite Hsize. unfold pending.
    change (drop 0 [mkCell d0 []]) with [mkCell d0 []].
    cbn [map cdata]. unfold list_sum, foldr. lia. }
  pose proof (bfsOrder_heap s h Hfin Hlayfin (length h) 0 ltac:(lia)) as Hbfs.
  rewrite drop_0 in Hbfs.
  change (allocated 0 h - 0) with 1 in Hbfs.
  assert (Hone : take 1 h = [c0]).
  { destruct h as [|x h]; [discriminate|]. simpl in Hc0.
    injection Hc0 as ->. reflexivity. }
  rewrite Hone in Hbfs. cbn [map] in Hbfs. rewrite Hd0 in Hbfs.
  rewrite Hsz, Hbfs, map_map.
  apply map_ext. intros c. apply data_pathTree.
Qed.

Lemma traversal_in_creation_order_witness :
  exists h,
    buildLoop (buildFuel testCase1) testCase1
      [mkCell (rootData testCase1 "A") []] [0] = Ok h
    /\ map data
         (bfsOrder (size (pathTree testCase1 (rootData testCase1 "A")))
            [pathTree testCase1 (rootData testCase1 "A")])
       = map cdata h.
Proof.
  apply (traversal_in_creation_order testCase1 "A").
  vm_compute. reflexivity.
Defined.
